(** * relayer, storage/postgresql/query.go: filter-to-SQL compilation

    A shallow embedding of [queryEventsSql], [QueryEvents] and [CountEvents]
    of the PostgreSQL storage backend, together with the pieces of the Go
    standard library and of sqlx that the compiled text depends on
    ([hex.DecodeString], the [%x] verb, [strconv.Itoa], [strings.Join],
    [sqlx.Rebind]).

    Go strings are byte strings: [string] (a list of 8-bit [ascii]).
    Go [int] values are [Z]; the code only compares them, so no wrap-around
    arises.  A byte is a [Z] in [0, 256).  A nil slice and an empty slice
    differ in Go ([filter.IDs != nil]), hence [option (list _)] for the
    filter dimensions; the [Tags] map is a [gmap], and the order in which
    a range statement visits it is an explicit argument of the functions
    that iterate over it.  The storage handle is a record of functions;
    [QueryEvents] and [CountEvents] return, next to their Go results, the
    calls they made on it.  The goroutine and the channel of [QueryEvents]
    are modelled by the events the consumer receives. *)

From Stdlib Require Import ZArith Ascii String DecimalString Lia.
From stdpp Require Import base option list gmap strings.

Local Open Scope Z_scope.

(* ================================================================== *)
(** ** Go library functions used by the compiler *)

Module Hex.

Inductive error :=
| InvalidByteError (c : ascii)
| ErrLength.

(** [reverseHexTable]: the value of a hex digit, [0xff] for any other byte.
    Both cases of the letters are accepted. *)
Definition reverseHexTable (c : ascii) : Z :=
  let n := Z.of_N (N_of_ascii c) in
  if (48 <=? n) && (n <=? 57) then n - 48
  else if (97 <=? n) && (n <=? 102) then n - 97 + 10
  else if (65 <=? n) && (n <=? 70) then n - 65 + 10
  else 255.

(** [hex.DecodeString]: the bytes decoded before the first problem, and
    the error if there was one.  Two characters are consumed per byte; a
    trailing single character is [ErrLength] unless it is itself not a hex
    digit. *)
Fixpoint DecodeString (s : string) : list Z * option error :=
  match s with
  | EmptyString => ([], None)
  | String p EmptyString =>
      if reverseHexTable p >? 15 then ([], Some (InvalidByteError p))
      else ([], Some ErrLength)
  | String p (String q rest) =>
      let a := reverseHexTable p in
      let b := reverseHexTable q in
      if a >? 15 then ([], Some (InvalidByteError p))
      else if b >? 15 then ([], Some (InvalidByteError q))
      else
        let '(bs, err) := DecodeString rest in
        (Z.lor (Z.shiftl a 4) b :: bs, err)
  end.

End Hex.

Module Fmt.

(** The digit table of package fmt, indexed by a nibble. *)
Definition ldigits : string := "0123456789abcdef".

Definition digit (n : Z) : ascii :=
  match String.get (Z.to_nat n) ldigits with
  | Some c => c
  | None => zero
  end.

(** The verb [%x] applied to a byte slice: two lower-case digits per
    byte, [digits[c>>4]] then [digits[c&0xF]]. *)
Fixpoint fmt_x (bs : list Z) : string :=
  match bs with
  | [] => EmptyString
  | c :: rest =>
      String (digit (Z.shiftr c 4)) (String (digit (Z.land c 15)) (fmt_x rest))
  end.

End Fmt.

Module Strconv.

(** [strconv.Itoa]: base 10, a leading minus sign for negatives. *)
Definition Itoa (i : Z) : string := NilZero.string_of_int (Z.to_int i).

End Strconv.

Module Strings.

(** [strings.Join(elems, sep)]. *)
Fixpoint Join (elems : list string) (sep : string) : string :=
  match elems with
  | [] => EmptyString
  | [e] => e
  | e :: rest => e +:+ sep +:+ Join rest sep
  end.

End Strings.

Module Sqlx.

Inductive bindType := UNKNOWN | QUESTION | DOLLAR | NAMED | AT.

(** [sqlx.BindType]: the bind variable style of a driver name. *)
Definition BindType (driverName : string) : bindType :=
  if bool_decide (driverName ∈
       ["postgres"; "pgx"; "pq-timeouts"; "cloudsqlpostgres"; "ql";
        "nrpostgres"; "cockroach"]) then DOLLAR
  else if bool_decide (driverName ∈
       ["mysql"; "sqlite3"; "nrmysql"; "nrsqlite3"]) then QUESTION
  else if bool_decide (driverName ∈
       ["oci8"; "ora"; "goracle"; "godror"]) then NAMED
  else if bool_decide (driverName ∈ ["sqlserver"]) then AT
  else UNKNOWN.

Definition bindPrefix (bt : bindType) : string :=
  match bt with
  | DOLLAR => "$"
  | NAMED => ":arg"
  | AT => "@p"
  | _ => ""
  end.

(** The loop of [Rebind]: every question mark, from left to right, is
    replaced by the prefix of the bind type followed by the running
    count [j+1], [j+2], ... *)
Fixpoint rebindFrom (bt : bindType) (j : Z) (query : string) : string :=
  match query with
  | EmptyString => EmptyString
  | String c rest =>
      if Ascii.eqb c "?" then
        bindPrefix bt +:+ Strconv.Itoa (j + 1) +:+ rebindFrom bt (j + 1) rest
      else String c (rebindFrom bt j rest)
  end.

Definition Rebind (bt : bindType) (query : string) : string :=
  match bt with
  | QUESTION | UNKNOWN => query
  | _ => rebindFrom bt 0 query
  end.

End Sqlx.

(* ================================================================== *)
(** ** Data model *)

Module Nostr.

(** [nostr.Filter], the fields the compiler reads.  [Limit] is a plain
    [int]: an absent limit is [0]. *)
Record Filter := {
  IDs : option (list string);
  Authors : option (list string);
  Kinds : option (list Z);
  Tags : gmap string (list string);
  Since : option Z;
  Until : option Z;
  Limit : Z
}.

Record Event := {
  ID : string;
  PubKey : string;
  CreatedAt : Z;
  Kind : Z;
  EventTags : list (list string);
  Content : string;
  Sig : string
}.

End Nostr.

Import Nostr.

(** A bound parameter, an element of the [[]any] slice handed to the
    driver: a tag value, the [since]/[until] timestamp, or the limit. *)
Inductive any :=
| AnyString (s : string)
| AnyTimestamp (t : Z)
| AnyInt (n : Z).

Inductive dbError :=
| ErrNoRows
| ErrDriver (msg : string).

(** What the driver holds for one result row: the event that [rows.Scan]
    fills in, or [None] when the scan of that row fails. *)
Definition Rows := list (option Event).

(** The [*sqlx.DB] handle, as far as this file calls it.  [Query] returns
    Go's pair (rows, err); [QueryRowScan] is [QueryRow(...).Scan(&count)]:
    the scanned value or the error. *)
Record DB := {
  Query : string → list any → option Rows * option dbError;
  QueryRowScan : string → list any → Z + dbError
}.

Record PostgresBackend := {
  db : DB;
  QueryLimit : Z;
  QueryIDsLimit : Z;
  QueryAuthorsLimit : Z;
  QueryKindsLimit : Z;
  QueryTagsLimit : Z
}.

Inductive error :=
| Errorf (msg : string)
| ErrFetch (query : string) (cause : dbError).

(* ================================================================== *)
(** ** queryEventsSql *)

Definition nl : string := String (ascii_of_nat 10) EmptyString.

(** The two raw string literals that open the query text. *)
Definition selectCount : string :=
  "SELECT" +:+ nl +:+ "          COUNT(*)" +:+ nl +:+ "        FROM event WHERE ".

Definition selectRows : string :=
  "SELECT" +:+ nl +:+ "          id, pubkey, created_at, kind, tags, content, sig"
  +:+ nl +:+ "        FROM event WHERE ".

Definition orderLimit : string := " ORDER BY created_at DESC LIMIT ?".

(** The loop over [filter.IDs] (column ["id"]) and over [filter.Authors]
    (column ["pubkey"]): an entry that does not decode, or not to 32 bytes,
    is skipped by [continue]; the others append
    [Sprintf("<column> LIKE '%x%%'", parsed)]. *)
Fixpoint likeLoop (column : string) (entries : list string) : list string :=
  match entries with
  | [] => []
  | entry :: rest =>
      let '(parsed, err) := Hex.DecodeString entry in
      if bool_decide (err ≠ None) || negb (Z.of_nat (length parsed) =? 32)
      then likeLoop column rest
      else (column +:+ " LIKE '" +:+ Fmt.fmt_x parsed +:+ "%'") :: likeLoop column rest
  end.

(** The loop [for _, values := range filter.Tags].  [tagsRange] is the
    sequence of entries the range statement delivers; [tagQuery] is the
    accumulator.  [None] is the early [return "", nil, nil]. *)
Fixpoint tagsLoop (limit : Z) (tagsRange : list (string * list string))
    (tagQuery : list string) : option (list string) :=
  match tagsRange with
  | [] => Some tagQuery
  | (_, values) :: rest =>
      if Z.of_nat (length values) =? 0 then None
      else
        let tagQuery := tagQuery ++ values in
        if Z.of_nat (length tagQuery) >? limit then None
        else tagsLoop limit rest tagQuery
  end.

(** Go leaves the iteration order of a map unspecified: the range
    statement may deliver the entries of [m] in any order. *)
Definition rangeOf (m : gmap string (list string))
    (tagsRange : list (string * list string)) : Prop :=
  tagsRange ≡ₚ map_to_list m.

(** Lines 63-181 of [queryEventsSql] for a non-nil filter: the local
    variables [conditions] and [params] when the end of the function is
    reached, [None] when one of the [return "", nil, nil] is taken. *)
Definition buildConditions (b : PostgresBackend) (filter : Filter)
    (tagsRange : list (string * list string)) : option (list string * list any) :=
  let conditions : list string := [] in
  let params : list any := [] in
  conditions ←
    match IDs filter with
    | Some ids =>
        if Z.of_nat (length ids) >? QueryIDsLimit b then None
        else
          let likeids := likeLoop "id" ids in
          if Z.of_nat (length likeids) =? 0 then None
          else Some (conditions ++ ["(" +:+ Strings.Join likeids " OR " +:+ ")"])
    | None => Some conditions
    end;
  conditions ←
    match Authors filter with
    | Some authors =>
        if Z.of_nat (length authors) >? QueryAuthorsLimit b then None
        else
          let likekeys := likeLoop "pubkey" authors in
          if Z.of_nat (length likekeys) =? 0 then None
          else Some (conditions ++ ["(" +:+ Strings.Join likekeys " OR " +:+ ")"])
    | None => Some conditions
    end;
  conditions ←
    match Kinds filter with
    | Some kinds =>
        if Z.of_nat (length kinds) >? QueryKindsLimit b then None
        else if Z.of_nat (length kinds) =? 0 then None
        else
          let inkinds := map Strconv.Itoa kinds in
          Some (conditions ++ ["kind IN (" +:+ Strings.Join inkinds "," +:+ ")"])
    | None => Some conditions
    end;
  tagQuery ← tagsLoop (QueryTagsLimit b) tagsRange [];
  let '(conditions, params) :=
    if Z.of_nat (length tagQuery) >? 0 then
      let arrayBuild := map (λ _, "?") tagQuery in
      (conditions ++ ["tagvalues && ARRAY[" +:+ Strings.Join arrayBuild "," +:+ "]"],
       params ++ map AnyString tagQuery)
    else (conditions, params) in
  let '(conditions, params) :=
    match Since filter with
    | Some since => (conditions ++ ["created_at >= ?"], params ++ [AnyTimestamp since])
    | None => (conditions, params)
    end in
  let '(conditions, params) :=
    match Until filter with
    | Some until => (conditions ++ ["created_at <= ?"], params ++ [AnyTimestamp until])
    | None => (conditions, params)
    end in
  let conditions :=
    if Z.of_nat (length conditions) =? 0 then conditions ++ ["true"]
    else conditions in
  let params :=
    if (Limit filter <? 1) || (Limit filter >? QueryLimit b)
    then params ++ [AnyInt (QueryLimit b)]
    else params ++ [AnyInt (Limit filter)] in
  Some (conditions, params).

(** [queryEventsSql(filter, doCount)]: the query text, the parameters and
    the error.  A nil [*nostr.Filter] is [None].  [tagsRange] is what the
    range statement over [filter.Tags] delivers in this call, one of the
    orders allowed by [rangeOf (Tags filter)]. *)
Definition queryEventsSql (b : PostgresBackend) (filter : option Filter)
    (doCount : bool) (tagsRange : list (string * list string))
    : string * list any * option error :=
  match filter with
  | None => ("", [], Some (Errorf "filter cannot be null"))
  | Some filter =>
      match buildConditions b filter tagsRange with
      | None => ("", [], None)
      | Some (conditions, params) =>
          let query :=
            if doCount then
              Sqlx.Rebind (Sqlx.BindType "postgres")
                (selectCount +:+ Strings.Join conditions " AND " +:+ orderLimit)
            else
              Sqlx.Rebind (Sqlx.BindType "postgres")
                (selectRows +:+ Strings.Join conditions " AND " +:+ orderLimit) in
          (query, params, None)
      end
  end.

(* ================================================================== *)
(** ** QueryEvents and CountEvents *)

(** What the consumer of the channel receives.  The producing goroutine
    sends one event per row and stops at the end of the rows or at the
    first row whose scan fails; with a nil [rows] its first call
    dereferences nil. *)
Inductive channel :=
| Delivered (events : list Event)
| NilRowsPanic.

Fixpoint scanRows (rows : Rows) : list Event :=
  match rows with
  | [] => []
  | Some evt :: rest => evt :: scanRows rest
  | None :: _ => []
  end.

Definition produce (rows : option Rows) : channel :=
  match rows with
  | Some rows => Delivered (scanRows rows)
  | None => NilRowsPanic
  end.

(** One call made on the storage handle: the query text and its
    arguments. *)
Definition call : Type := string * list any.

(** [QueryEvents]: the pair (ch, err) it returns, and the calls it made
    on [b.DB], in order. *)
Definition QueryEvents (b : PostgresBackend) (filter : option Filter)
    (tagsRange : list (string * list string))
    : (option channel * option error) * list call :=
  let '(query, params, err) := queryEventsSql b filter false tagsRange in
  match err with
  | Some e => ((None, Some e), [])
  | None =>
      let '(rows, err) := Query (db b) query params in
      match err with
      | Some (ErrDriver msg) =>
          ((None, Some (ErrFetch query (ErrDriver msg))), [(query, params)])
      | _ => ((Some (produce rows), None), [(query, params)])
      end
  end.

(** [CountEvents]: the pair (count, err), and the calls made on [b.DB]. *)
Definition CountEvents (b : PostgresBackend) (filter : option Filter)
    (tagsRange : list (string * list string))
    : (Z * option error) * list call :=
  let '(query, params, err) := queryEventsSql b filter true tagsRange in
  match err with
  | Some e => ((0, Some e), [])
  | None =>
      let count := 0 in
      match QueryRowScan (db b) query params with
      | inl n => ((n, None), [(query, params)])
      | inr ErrNoRows => ((count, None), [(query, params)])
      | inr (ErrDriver msg) =>
          ((0, Some (ErrFetch query (ErrDriver msg))), [(query, params)])
      end
  end.

(** The limit that closes the parameter list (lines 177-181). *)
Definition resolvedLimit (b : PostgresBackend) (filter : Filter) : Z :=
  if (Limit filter <? 1) || (Limit filter >? QueryLimit b)
  then QueryLimit b else Limit filter.

(* ------------------------------------------------------------------ *)
(** *** Sample values *)

Definition limits0 (d : DB) : PostgresBackend :=
  {| db := d; QueryLimit := 100; QueryIDsLimit := 500;
     QueryAuthorsLimit := 500; QueryKindsLimit := 10; QueryTagsLimit := 10 |}.

(** A handle that answers like PostgreSQL does on the empty query text:
    no rows, no error. *)
Definition dbEmpty : DB :=
  {| Query := λ _ _, (Some [], None);
     QueryRowScan := λ _ _, inr ErrNoRows |}.

Definition noFilter : Filter :=
  {| IDs := None; Authors := None; Kinds := None; Tags := ∅;
     Since := None; Until := None; Limit := 0 |}.

Definition hex64 : string :=
  "00112233445566778899AABBCCDDEEFF00112233445566778899aabbccddeeff".

Definition fKind10 : Filter :=
  {| IDs := None; Authors := None; Kinds := Some [1]; Tags := ∅;
     Since := None; Until := None; Limit := 10 |}.

Definition fWindow : Filter :=
  {| IDs := None; Authors := None; Kinds := None; Tags := ∅;
     Since := Some 1000; Until := Some 2000; Limit := 0 |}.

Definition fEmptyIDs : Filter :=
  {| IDs := Some []; Authors := None; Kinds := None; Tags := ∅;
     Since := None; Until := None; Limit := 0 |}.

Definition fIdentity : Filter :=
  {| IDs := Some [hex64; "zz-not-hex"]; Authors := Some [hex64]; Kinds := None;
     Tags := ∅; Since := None; Until := None; Limit := 5 |}.

Definition fTwoTags : Filter :=
  {| IDs := None; Authors := None; Kinds := None;
     Tags := {[ "e" := ["a"]; "p" := ["b"] ]};
     Since := None; Until := None; Limit := 0 |}.

Definition rangeEP : list (string * list string) := [("e", ["a"]); ("p", ["b"])].
Definition rangePE : list (string * list string) := [("p", ["b"]); ("e", ["a"])].

(* ================================================================== *)
(** ** Vocabulary of the specification

    The words the specification uses for the pieces of the compiled
    query, as functions of the filter, to be compared with what
    [buildConditions] computes. *)

(** An [ids]/[authors] entry survives validation when it decodes without
    error to exactly 32 bytes. *)
Definition validEntry (entry : string) : bool :=
  let '(parsed, err) := Hex.DecodeString entry in
  bool_decide (err = None) && (Z.of_nat (length parsed) =? 32).

(** The lower-case hex re-encoding of the bytes an entry decodes to. *)
Definition reencode (entry : string) : string :=
  Fmt.fmt_x (Hex.DecodeString entry).1.

(** A prefix match: the literal between quotes, then the wildcard. *)
Definition prefixMatch (column literal : string) : string :=
  column +:+ " LIKE '" +:+ literal +:+ "%'".

Definition orGroup (alternatives : list string) : string :=
  "(" +:+ Strings.Join alternatives " OR " +:+ ")".

Definition survivors (entries : list string) : list string :=
  map reencode (filter (λ e, validEntry e = true) entries).

Definition likeConds (column : string) (dim : option (list string)) : list string :=
  match dim with
  | Some entries => [orGroup (map (prefixMatch column) (survivors entries))]
  | None => []
  end.

Definition kindConds (dim : option (list Z)) : list string :=
  match dim with
  | Some kinds => ["kind IN (" +:+ Strings.Join (map Strconv.Itoa kinds) "," +:+ ")"]
  | None => []
  end.

(** All tag value lists in one sequence, in the order of the iteration. *)
Definition flatten (tagsRange : list (string * list string)) : list string :=
  concat (map snd tagsRange).

Definition overlapCond (values : list string) : string :=
  "tagvalues && ARRAY[" +:+ Strings.Join (map (λ _, "?") values) "," +:+ "]".

Definition tagConds (values : list string) : list string :=
  match values with
  | [] => []
  | _ => [overlapCond values]
  end.

Definition sinceConds (since : option Z) : list string :=
  match since with Some _ => ["created_at >= ?"] | None => [] end.

Definition untilConds (until : option Z) : list string :=
  match until with Some _ => ["created_at <= ?"] | None => [] end.

Definition timeParams (t : option Z) : list any :=
  match t with Some t => [AnyTimestamp t] | None => [] end.

Definition orTrue (conditions : list string) : list string :=
  match conditions with
  | [] => ["true"]
  | _ => conditions
  end.

(** The conditions a filter emits, before the fallback. *)
Definition emitted (filter : Filter) (tagsRange : list (string * list string))
    : list string :=
  likeConds "id" (IDs filter) ++ likeConds "pubkey" (Authors filter)
  ++ kindConds (Kinds filter) ++ tagConds (flatten tagsRange)
  ++ sinceConds (Since filter) ++ untilConds (Until filter).

(** The conditions and the parameters of a filter that is not rejected. *)
Definition conditionsOf (filter : Filter) (tagsRange : list (string * list string))
    : list string :=
  orTrue (emitted filter tagsRange).

Definition paramsOf (b : PostgresBackend) (filter : Filter)
    (tagsRange : list (string * list string)) : list any :=
  map AnyString (flatten tagsRange) ++ timeParams (Since filter)
  ++ timeParams (Until filter) ++ [AnyInt (resolvedLimit b filter)].

(** A dimension is over its limit when it is present with more elements
    than the limit; it is present but empty when it is the empty list. *)
Definition overLimit {A} (limit : Z) (dim : option (list A)) : bool :=
  match dim with
  | Some l => Z.of_nat (length l) >? limit
  | None => false
  end.

Definition presentEmpty {A} (dim : option (list A)) : bool :=
  match dim with
  | Some [] => true
  | _ => false
  end.

(** Present, and no entry survives validation (an empty list included). *)
Definition noneValid (dim : option (list string)) : bool :=
  match dim with
  | Some l => forallb (λ e, negb (validEntry e)) l
  | None => false
  end.

Definition someTagEmpty (tagsRange : list (string * list string)) : bool :=
  existsb (λ e, Z.of_nat (length e.2) =? 0) tagsRange.

Definition tagsOverLimit (limit : Z) (tagsRange : list (string * list string)) : bool :=
  match tagsRange with
  | [] => false
  | _ => Z.of_nat (length (flatten tagsRange)) >? limit
  end.

(** The filters for which [queryEventsSql] returns the empty text. *)
Definition rejected (b : PostgresBackend) (filter : Filter)
    (tagsRange : list (string * list string)) : bool :=
  overLimit (QueryIDsLimit b) (IDs filter) || noneValid (IDs filter)
  || overLimit (QueryAuthorsLimit b) (Authors filter) || noneValid (Authors filter)
  || overLimit (QueryKindsLimit b) (Kinds filter) || presentEmpty (Kinds filter)
  || someTagEmpty tagsRange || tagsOverLimit (QueryTagsLimit b) tagsRange.

Fixpoint countChar (c : ascii) (s : string) : nat :=
  match s with
  | EmptyString => 0%nat
  | String c' rest => ((if Ascii.eqb c' c then 1 else 0) + countChar c rest)%nat
  end.

Fixpoint allChars (P : ascii → bool) (s : string) : bool :=
  match s with
  | EmptyString => true
  | String c rest => P c && allChars P rest
  end.

(** The characters [0-9a-f]. *)
Definition isLowerHex (c : ascii) : bool :=
  let n := N_of_ascii c in
  ((48 <=? n) && (n <=? 57) || (97 <=? n) && (n <=? 102))%N.

(** A string matching [[0-9a-f]{64}]. *)
Definition lowerHex64 (s : string) : bool :=
  (String.length s =? 64)%nat && allChars isLowerHex s.

(** The placeholders of a query text in PostgreSQL's convention are its
    dollar signs. *)
Definition placeholders (query : string) : nat := countChar "$" query.

(** The characters [Itoa] can write: the digits and the minus sign. *)
Definition isDecimalChar (c : ascii) : bool :=
  let n := N_of_ascii c in
  ((48 <=? n) && (n <=? 57) || (n =? 45))%N.

(** The filter with another [ids] or [authors] dimension, and the filter
    without both. *)
Definition withIDs (filter : Filter) (ids : option (list string)) : Filter :=
  {| IDs := ids; Authors := Authors filter; Kinds := Kinds filter;
     Tags := Tags filter; Since := Since filter; Until := Until filter;
     Limit := Limit filter |}.

Definition withAuthors (filter : Filter) (authors : option (list string)) : Filter :=
  {| IDs := IDs filter; Authors := authors; Kinds := Kinds filter;
     Tags := Tags filter; Since := Since filter; Until := Until filter;
     Limit := Limit filter |}.

Definition valid (entries : list string) : list string :=
  filter (λ e, validEntry e = true) entries.

Definition headChar (s : string) : option ascii :=
  match s with
  | String c _ => Some c
  | EmptyString => None
  end.

(** The text that closes every compiled query: the placeholder of the
    limit carries the number of the last parameter. *)
Definition orderLimitBound (n : nat) : string :=
  " ORDER BY created_at DESC LIMIT $" +:+ Strconv.Itoa (Z.of_nat n).

(** Neither a question mark nor a dollar sign. *)
Definition isPlain (c : ascii) : bool :=
  negb (Ascii.eqb c "?") && negb (Ascii.eqb c "$").

(* ------------------------------------------------------------------ *)
(** *** Vocabulary of the further properties *)

(** The characters [0-9a-fA-F]. *)
Definition isHexDigit (c : ascii) : bool :=
  let n := N_of_ascii c in
  ((48 <=? n) && (n <=? 57) || (97 <=? n) && (n <=? 102)
   || (65 <=? n) && (n <=? 70))%N.

(** ASCII lower case. *)
Definition lowerChar (c : ascii) : ascii :=
  let n := N_of_ascii c in
  if ((65 <=? n) && (n <=? 90))%N then ascii_of_N (n + 32) else c.

Fixpoint lowerString (s : string) : string :=
  match s with
  | EmptyString => EmptyString
  | String c rest => String (lowerChar c) (lowerString rest)
  end.

(** The placeholders [$j+1], [$j+2], ..., [$j+n]. *)
Fixpoint numbered (j : Z) (n : nat) : list string :=
  match n with
  | O => []
  | S n => ("$" +:+ Strconv.Itoa (j + 1)) :: numbered (j + 1) n
  end.

(** The conditions as they stand in the final text, with the placeholders
    numbered: the tag values take [$1 .. $t], since the next number, until
    the one after. *)
Definition boundConditions (filter : Filter) (tagsRange : list (string * list string))
    : list string :=
  let t := length (flatten tagsRange) in
  let s := length (timeParams (Since filter)) in
  orTrue
    (likeConds "id" (IDs filter) ++ likeConds "pubkey" (Authors filter)
     ++ kindConds (Kinds filter)
     ++ match t with
        | O => []
        | _ => ["tagvalues && ARRAY[" +:+ Strings.Join (numbered 0 t) "," +:+ "]"]
        end
     ++ match Since filter with
        | Some _ => ["created_at >= $" +:+ Strconv.Itoa (Z.of_nat t + 1)]
        | None => []
        end
     ++ match Until filter with
        | Some _ => ["created_at <= $" +:+ Strconv.Itoa (Z.of_nat (t + s) + 1)]
        | None => []
        end).

(** The elements of a list rebound one after the other, the count of
    placeholders running on from one element to the next. *)
Fixpoint rebindEach (j : Z) (elems : list string) : list string :=
  match elems with
  | [] => []
  | e :: rest =>
      Sqlx.rebindFrom Sqlx.DOLLAR j e
      :: rebindEach (j + Z.of_nat (countChar "?" e)) rest
  end.

Definition isPresent {A} (o : option A) : bool :=
  match o with Some _ => true | None => false end.

(** A result set in which the scan of the third row fails. *)
Definition evt (id : string) (at_ : Z) : Event :=
  {| ID := id; PubKey := ""; CreatedAt := at_; Kind := 1; EventTags := [];
     Content := ""; Sig := "" |}.

Definition dbThree : DB :=
  {| Query := λ _ _, (Some [Some (evt "a" 3); Some (evt "b" 2); None; Some (evt "c" 1)], None);
     QueryRowScan := λ _ _, inl 3 |}.

Definition dbDown : DB :=
  {| Query := λ _ _, (None, Some (ErrDriver "connection refused"));
     QueryRowScan := λ _ _, inr (ErrDriver "connection refused") |}.

(* ================================================================== *)
(** * Properties *)

(** ** Strings *)

Lemma append_cons c (s t : string) : String c s +:+ t = String c (s +:+ t).
Proof. reflexivity. Qed.

Lemma append_nil_l (s : string) : "" +:+ s = s.
Proof. reflexivity. Qed.

Lemma append_nil_r (s : string) : s +:+ "" = s.
Proof. induction s as [|c s IH]; [done | by rewrite append_cons, IH]. Qed.

Lemma append_assoc (s1 s2 s3 : string) : (s1 +:+ s2) +:+ s3 = s1 +:+ s2 +:+ s3.
Proof. induction s1 as [|c s1 IH]; [done | by rewrite !append_cons, IH]. Qed.

Ltac str_norm := repeat (rewrite ?append_cons, ?append_nil_l, ?append_assoc).

Lemma countChar_app c (s1 s2 : string) :
  countChar c (s1 +:+ s2) = (countChar c s1 + countChar c s2)%nat.
Proof.
  induction s1 as [|c' s1 IH]; [done |].
  rewrite append_cons. simpl. rewrite IH. lia.
Qed.

Lemma allChars_app P (s1 s2 : string) :
  allChars P (s1 +:+ s2) = allChars P s1 && allChars P s2.
Proof.
  induction s1 as [|c s1 IH]; [done |].
  rewrite append_cons. simpl. by rewrite IH, andb_assoc.
Qed.

(** A string all of whose characters satisfy [P] has no character
    outside [P]. *)
Lemma allChars_countChar P c (s : string) :
  P c = false → allChars P s = true → countChar c s = 0%nat.
Proof.
  intros HP. induction s as [|c' s IH]; simpl; [done |].
  intros [Hc Hs]%andb_true_iff. rewrite (IH Hs).
  destruct (Ascii.eqb_spec c' c) as [->|]; [congruence | done].
Qed.

Lemma allChars_impl (P Q : ascii → bool) (s : string) :
  (∀ c, P c = true → Q c = true) → allChars P s = true → allChars Q s = true.
Proof.
  intros HPQ. induction s as [|c s IH]; simpl; [done |].
  intros [Hc Hs]%andb_true_iff. by rewrite (HPQ _ Hc), (IH Hs).
Qed.

(** ** The library functions *)

Lemma string_of_uint_decimal (d : Decimal.uint) :
  allChars isDecimalChar (NilEmpty.string_of_uint d) = true.
Proof. induction d; simpl; done. Qed.

(** [Itoa] writes digits and at most a minus sign. *)
Lemma Itoa_decimal (i : Z) : allChars isDecimalChar (Strconv.Itoa i) = true.
Proof.
  unfold Strconv.Itoa, NilZero.string_of_int.
  destruct (Z.to_int i) as [d|d]; simpl; unfold NilZero.string_of_uint;
    destruct d; simpl; try done; apply string_of_uint_decimal.
Qed.

Lemma Itoa_no c (i : Z) : isDecimalChar c = false → countChar c (Strconv.Itoa i) = 0%nat.
Proof. intros Hc. eapply allChars_countChar; [done | apply Itoa_decimal]. Qed.

(** Induction on a string two characters at a time, the way
    [DecodeString] consumes it. *)
Lemma string_pair_ind (P : string → Prop) :
  P "" → (∀ p, P (String p "")) →
  (∀ p q rest, P rest → P (String p (String q rest))) →
  ∀ s, P s.
Proof.
  intros H0 H1 H2 s.
  assert (P s ∧ ∀ c, P (String c s)) as [? _]; [| done].
  induction s as [|c s [IHs IHc]]; split; auto.
Qed.

Lemma reverseHexTable_nibble (c : ascii) :
  (Hex.reverseHexTable c >? 15) = false → 0 ≤ Hex.reverseHexTable c ≤ 15.
Proof.
  unfold Hex.reverseHexTable.
  repeat case_match; lia.
Qed.

Lemma nibble_pair_byte (a b : Z) :
  0 ≤ a ≤ 15 → 0 ≤ b ≤ 15 → 0 ≤ Z.lor (Z.shiftl a 4) b < 256.
Proof.
  intros Ha Hb. split.
  - apply Z.lor_nonneg. split; [apply Z.shiftl_nonneg|]; lia.
  - assert (Hbits : ∀ n, 8 ≤ n → Z.testbit (Z.lor (Z.shiftl a 4) b) n = false).
    { intros n Hn. rewrite Z.lor_spec, Z.shiftl_spec by lia.
      rewrite (Z.bits_above_log2 a (n - 4)), (Z.bits_above_log2 b n); [done | lia | | lia |].
      - destruct (decide (b = 0)) as [->|]; [simpl; lia|].
        apply Z.log2_lt_pow2; [lia|]. change (2 ^ n) with (2 ^ n).
        assert (2 ^ 8 ≤ 2 ^ n) by (apply Z.pow_le_mono_r; lia). lia.
      - destruct (decide (a = 0)) as [->|]; [simpl; lia|].
        apply Z.log2_lt_pow2; [lia|].
        assert (2 ^ 4 ≤ 2 ^ (n - 4)) by (apply Z.pow_le_mono_r; lia). lia. }
    destruct (Z.lt_ge_cases (Z.lor (Z.shiftl a 4) b) 256) as [|Hge]; [done|].
    exfalso.
    assert (Hpos : 0 < Z.lor (Z.shiftl a 4) b) by lia.
    pose proof (Z.bit_log2 _ Hpos) as Hb1.
    rewrite Hbits in Hb1; [done|].
    change 8 with (Z.log2 256). by apply Z.log2_le_mono.
Qed.

(** Every byte [DecodeString] returns is a byte. *)
Lemma DecodeString_bytes (s : string) :
  Forall (λ c, 0 ≤ c < 256) (Hex.DecodeString s).1.
Proof.
  induction s as [|p|p q rest IH] using string_pair_ind.
  - constructor.
  - simpl. case_match; constructor.
  - simpl.
    destruct (Hex.reverseHexTable p >? 15) eqn:Hp; [constructor|].
    destruct (Hex.reverseHexTable q >? 15) eqn:Hq; [constructor|].
    destruct (Hex.DecodeString rest) as [bs err]. simpl in *.
    constructor; [|done].
    apply nibble_pair_byte; by apply reverseHexTable_nibble.
Qed.

Lemma digit_lower_hex (n : Z) : 0 ≤ n < 16 → isLowerHex (Fmt.digit n) = true.
Proof.
  intros Hn.
  assert (Hc : ∃ k : nat, (k < 16)%nat ∧ n = Z.of_nat k).
  { exists (Z.to_nat n). lia. }
  destruct Hc as (k & Hk & ->).
  unfold Fmt.digit. rewrite Nat2Z.id.
  do 16 (destruct k as [|k]; [reflexivity|]). lia.
Qed.

(** [%x] of bytes writes two characters of [0-9a-f] for each. *)
Lemma fmt_x_lower_hex (bs : list Z) :
  Forall (λ c, 0 ≤ c < 256) bs → allChars isLowerHex (Fmt.fmt_x bs) = true.
Proof.
  induction 1 as [|c bs Hc _ IH]; [done|].
  simpl. rewrite IH.
  rewrite !digit_lower_hex; [done | |].
  - change 15 with (Z.ones 4). rewrite Z.land_ones by lia.
    apply Z.mod_pos_bound. lia.
  - rewrite Z.shiftr_div_pow2 by lia. change (2 ^ 4) with 16.
    split; [apply Z.div_pos; lia | apply Z.div_lt_upper_bound; lia].
Qed.

Lemma fmt_x_length (bs : list Z) :
  String.length (Fmt.fmt_x bs) = (2 * length bs)%nat.
Proof. induction bs as [|c bs IH]; simpl; [done | rewrite IH; lia]. Qed.

(** The literal of a surviving entry matches [[0-9a-f]{64}]. *)
Lemma reencode_lowerHex64 (entry : string) :
  validEntry entry = true → lowerHex64 (reencode entry) = true.
Proof.
  unfold validEntry, reencode, lowerHex64.
  pose proof (DecodeString_bytes entry) as Hb.
  destruct (Hex.DecodeString entry) as [parsed err]; simpl in *.
  intros [_ Hlen%Z.eqb_eq]%andb_true_iff.
  rewrite fmt_x_length, fmt_x_lower_hex by done.
  rewrite andb_true_r. apply Nat.eqb_eq. lia.
Qed.

Lemma survivors_lowerHex64 (entries : list string) :
  Forall (λ lit, lowerHex64 lit = true) (survivors entries).
Proof.
  unfold survivors. apply Forall_map, Forall_forall.
  intros e [He _]%list_elem_of_filter. by apply reencode_lowerHex64.
Qed.

(** ** The loops *)

(** The loop over ids or authors keeps exactly the survivors, in order. *)
Lemma likeLoop_survivors (column : string) (entries : list string) :
  likeLoop column entries = map (prefixMatch column) (survivors entries).
Proof.
  unfold survivors.
  induction entries as [|e entries IH]; [done|].
  simpl. rewrite filter_cons.
  assert (Hr : reencode e = Fmt.fmt_x (Hex.DecodeString e).1) by done.
  assert (Hv : validEntry e =
    let '(parsed, err) := Hex.DecodeString e in
    bool_decide (err = None) && (Z.of_nat (length parsed) =? 32)) by done.
  destruct (Hex.DecodeString e) as [parsed err]. simpl in Hr.
  destruct (validEntry e).
  - symmetry in Hv. apply andb_true_iff in Hv as [->%bool_decide_eq_true ->].
    rewrite bool_decide_false by (intros H; by apply H). simpl.
    by rewrite IH, Hr.
  - simpl.
    replace (bool_decide (err ≠ None) || negb (Z.of_nat (length parsed) =? 32))
      with true; [apply IH|].
    symmetry in Hv. apply andb_false_iff in Hv as [Hv%bool_decide_eq_false| ->].
    + by rewrite bool_decide_true.
    + by rewrite orb_true_r.
Qed.

Lemma survivors_nil_iff (entries : list string) :
  survivors entries = [] ↔ forallb (λ e, negb (validEntry e)) entries = true.
Proof.
  unfold survivors.
  induction entries as [|e entries IH]; [done|].
  rewrite filter_cons. simpl. destruct (validEntry e) eqn:He; simpl.
  - split; done.
  - apply IH.
Qed.

(** The loop over the tags: the early return is taken when some value
    list is empty or when the accumulated values outgrow the limit;
    otherwise all value lists are appended in order. *)
Lemma tagsLoop_spec (limit : Z) (tagsRange : list (string * list string))
    (tagQuery : list string) :
  tagsLoop limit tagsRange tagQuery =
  if someTagEmpty tagsRange
     || match tagsRange with
        | [] => false
        | _ => Z.of_nat (length tagQuery + length (flatten tagsRange)) >? limit
        end
  then None else Some (tagQuery ++ flatten tagsRange).
Proof.
  revert tagQuery.
  induction tagsRange as [|[name values] rest IH]; intros tagQuery.
  - simpl. by rewrite app_nil_r.
  - cbn [tagsLoop someTagEmpty existsb snd].
    destruct (Z.of_nat (length values) =? 0) eqn:Hv; [done|].
    unfold flatten. cbn [map concat snd]. fold (flatten rest).
    rewrite orb_false_l, !length_app.
    destruct (Z.of_nat (length tagQuery + length values) >? limit) eqn:Hover.
    + apply Z.gtb_lt in Hover.
      replace (Z.of_nat (length tagQuery + (length values + length (flatten rest))) >? limit)
        with true by (symmetry; apply Z.gtb_lt; lia).
      by rewrite orb_true_r.
    + rewrite IH. fold (someTagEmpty rest). rewrite length_app.
      rewrite <- app_assoc. destruct rest as [|e rest'].
      * simpl. rewrite Nat.add_0_r, Hover. done.
      * by rewrite Nat.add_assoc.
Qed.

(** ** What [buildConditions] computes *)

Lemma length_zero_iff_nil {A} (l : list A) :
  (Z.of_nat (length l) =? 0) = true ↔ l = [].
Proof. destruct l; simpl; split; done. Qed.

Lemma likeStep column limit (dim : option (list string)) (conditions : list string) :
  match dim with
  | Some entries =>
      if Z.of_nat (length entries) >? limit then None
      else
        if Z.of_nat (length (likeLoop column entries)) =? 0 then None
        else Some (conditions ++
                   ["(" +:+ Strings.Join (likeLoop column entries) " OR " +:+ ")"])
  | None => Some conditions
  end =
  if overLimit limit dim || noneValid dim then None
  else Some (conditions ++ likeConds column dim).
Proof.
  destruct dim as [entries|]; simpl; [|by rewrite app_nil_r].
  destruct (Z.of_nat (length entries) >? limit); [done|]. simpl.
  rewrite likeLoop_survivors, length_map.
  destruct (forallb _ entries) eqn:Hnone.
  - apply survivors_nil_iff in Hnone. by rewrite Hnone.
  - destruct (survivors entries) eqn:Hs; [|done].
    apply survivors_nil_iff in Hs. congruence.
Qed.

Lemma kindStep limit (dim : option (list Z)) (conditions : list string) :
  match dim with
  | Some kinds =>
      if Z.of_nat (length kinds) >? limit then None
      else if Z.of_nat (length kinds) =? 0 then None
      else Some (conditions ++
                 ["kind IN (" +:+ Strings.Join (map Strconv.Itoa kinds) "," +:+ ")"])
  | None => Some conditions
  end =
  if overLimit limit dim || presentEmpty dim then None
  else Some (conditions ++ kindConds dim).
Proof.
  destruct dim as [kinds|]; simpl; [|by rewrite app_nil_r].
  destruct (Z.of_nat (length kinds) >? limit); [done|].
  by destruct kinds.
Qed.

Lemma tagStep limit tagsRange :
  tagsLoop limit tagsRange [] =
  if someTagEmpty tagsRange || tagsOverLimit limit tagsRange then None
  else Some (flatten tagsRange).
Proof. rewrite tagsLoop_spec. by destruct tagsRange. Qed.

Lemma overlapStep (conditions : list string) (params : list any)
    (tagQuery : list string) :
  (if Z.of_nat (length tagQuery) >? 0 then
     (conditions ++
        ["tagvalues && ARRAY[" +:+ Strings.Join (map (λ _, "?") tagQuery) ","
         +:+ "]"],
      params ++ map AnyString tagQuery)
   else (conditions, params)) =
  (conditions ++ tagConds tagQuery, params ++ map AnyString tagQuery).
Proof. destruct tagQuery; simpl; [by rewrite !app_nil_r | done]. Qed.

Lemma timeStep (cond : string) (t : option Z) (conditions : list string)
    (params : list any) :
  match t with
  | Some t => (conditions ++ [cond], params ++ [AnyTimestamp t])
  | None => (conditions, params)
  end =
  (conditions ++ match t with Some _ => [cond] | None => [] end,
   params ++ timeParams t).
Proof. destruct t; simpl; [done | by rewrite !app_nil_r]. Qed.

Lemma fallbackStep (conditions : list string) :
  (if Z.of_nat (length conditions) =? 0 then conditions ++ ["true"]
   else conditions) = orTrue conditions.
Proof. by destruct conditions. Qed.

(** The code and the vocabulary of the specification agree: the early
    returns are taken exactly on the rejected filters, and otherwise the
    function ends with the conditions and parameters of the filter. *)
Lemma buildConditions_spec b filter tagsRange :
  buildConditions b filter tagsRange =
  if rejected b filter tagsRange then None
  else Some (conditionsOf filter tagsRange, paramsOf b filter tagsRange).
Proof.
  unfold buildConditions, rejected, conditionsOf, emitted, paramsOf, resolvedLimit.
  cbv zeta.
  rewrite likeStep.
  destruct (overLimit _ (IDs filter) || noneValid (IDs filter)); [done|].
  cbn [mbind option_bind orb]. rewrite likeStep.
  destruct (overLimit _ (Authors filter) || noneValid (Authors filter)); [done|].
  cbn [mbind option_bind orb]. rewrite kindStep.
  destruct (overLimit _ (Kinds filter) || presentEmpty (Kinds filter)); [done|].
  cbn [mbind option_bind orb]. rewrite tagStep.
  destruct (someTagEmpty tagsRange) eqn:Hempty; [done|].
  cbn [orb].
  destruct (tagsOverLimit _ tagsRange); [done|].
  cbn [mbind option_bind orb].
  rewrite overlapStep, (timeStep "created_at >= ?"). cbv iota beta.
  rewrite (timeStep "created_at <= ?"), fallbackStep.
  fold (sinceConds (Since filter)) (untilConds (Until filter)).
  rewrite !app_nil_l, <- !app_assoc.
  by destruct ((Limit filter <? 1) || (Limit filter >? QueryLimit b)).
Qed.

(** [queryEventsSql] in the vocabulary of the specification. *)
Lemma queryEventsSql_spec b filter doCount tagsRange :
  queryEventsSql b (Some filter) doCount tagsRange =
  if rejected b filter tagsRange then ("", [], None)
  else
    (Sqlx.rebindFrom Sqlx.DOLLAR 0
       ((if doCount then selectCount else selectRows)
        +:+ Strings.Join (conditionsOf filter tagsRange) " AND " +:+ orderLimit),
     paramsOf b filter tagsRange, None).
Proof.
  unfold queryEventsSql. rewrite buildConditions_spec.
  destruct (rejected b filter tagsRange); [done|].
  by destruct doCount.
Qed.

(** ** Placeholders *)

Lemma countChar_Join c (elems : list string) (sep : string) :
  countChar c sep = 0%nat →
  countChar c (Strings.Join elems sep) = sum_list_with (countChar c) elems.
Proof.
  intros Hsep. induction elems as [|e [|e' elems] IH]; [done | simpl; lia |].
  change (Strings.Join (e :: e' :: elems) sep)
    with (e +:+ sep +:+ Strings.Join (e' :: elems) sep).
  rewrite !countChar_app, IH, Hsep. simpl. lia.
Qed.

Lemma allChars_Join P (elems : list string) (sep : string) :
  allChars P sep = true → Forall (λ e, allChars P e = true) elems →
  allChars P (Strings.Join elems sep) = true.
Proof.
  intros Hsep. induction 1 as [|e elems He Hall IH]; [done|].
  destruct elems as [|e' elems]; [done|].
  change (Strings.Join (e :: e' :: elems) sep)
    with (e +:+ sep +:+ Strings.Join (e' :: elems) sep).
  by rewrite !allChars_app, He, Hsep, IH.
Qed.

Lemma lowerHex_plain c : isLowerHex c = true → isPlain c = true.
Proof.
  unfold isLowerHex, isPlain. intros H.
  destruct (Ascii.eqb_spec c "?") as [->|]; [done|].
  destruct (Ascii.eqb_spec c "$") as [->|]; done.
Qed.

Lemma decimal_plain c : isDecimalChar c = true → isPlain c = true.
Proof.
  unfold isDecimalChar, isPlain. intros H.
  destruct (Ascii.eqb_spec c "?") as [->|]; [done|].
  destruct (Ascii.eqb_spec c "$") as [->|]; done.
Qed.

Lemma plain_count c (s : string) :
  c = "?"%char ∨ c = "$"%char → allChars isPlain s = true → countChar c s = 0%nat.
Proof. intros [->| ->]; by apply allChars_countChar. Qed.

(** The groups built from ids and authors hold no placeholder
    character. *)
Lemma likeConds_plain column (dim : option (list string)) :
  allChars isPlain column = true →
  Forall (λ e, allChars isPlain e = true) (likeConds column dim).
Proof.
  intros Hcol. destruct dim as [entries|]; [|constructor].
  repeat constructor. unfold orGroup.
  rewrite !allChars_app, allChars_Join; [done | done |].
  apply Forall_map, Forall_forall. intros lit Hlit.
  pose proof (survivors_lowerHex64 entries) as Hall.
  rewrite Forall_forall in Hall. specialize (Hall _ Hlit).
  apply andb_true_iff in Hall as [_ Hall].
  unfold prefixMatch. rewrite !allChars_app, Hcol.
  rewrite (allChars_impl _ _ _ lowerHex_plain Hall). done.
Qed.

Lemma kindConds_plain (dim : option (list Z)) :
  Forall (λ e, allChars isPlain e = true) (kindConds dim).
Proof.
  destruct dim as [kinds|]; [|constructor].
  repeat constructor.
  rewrite !allChars_app, allChars_Join; [done | done |].
  apply Forall_map, Forall_forall. intros k _.
  apply (allChars_impl _ _ _ decimal_plain), Itoa_decimal.
Qed.

Lemma sum_plain c (elems : list string) :
  c = "?"%char ∨ c = "$"%char →
  Forall (λ e, allChars isPlain e = true) elems →
  sum_list_with (countChar c) elems = 0%nat.
Proof.
  intros Hc. induction 1 as [|e elems He _ IH]; [done|].
  simpl. by rewrite IH, (plain_count c e).
Qed.

Lemma marks_question (values : list string) :
  countChar "?" (Strings.Join (map (λ _, "?") values) ",") = length values.
Proof.
  rewrite countChar_Join by done.
  induction values as [|v values IH]; [done|]. simpl. by rewrite IH.
Qed.

Lemma marks_dollar (values : list string) :
  countChar "$" (Strings.Join (map (λ _, "?") values) ",") = 0%nat.
Proof.
  rewrite countChar_Join by done.
  induction values as [|v values IH]; [done|]. simpl. by rewrite IH.
Qed.

(** The question marks of the joined conditions are as many as the
    parameters before the limit, and there is no dollar sign. *)
Lemma conditions_question filter tagsRange :
  countChar "?" (Strings.Join (conditionsOf filter tagsRange) " AND ") =
  (length (flatten tagsRange) + length (timeParams (Since filter))
   + length (timeParams (Until filter)))%nat.
Proof.
  rewrite countChar_Join by done. unfold conditionsOf, emitted.
  set (L := _ ++ _).
  transitivity (sum_list_with (countChar "?") L); [by destruct L|].
  unfold L. rewrite !sum_list_with_app.
  rewrite (sum_plain "?" (likeConds "id" _)) by (auto using likeConds_plain).
  rewrite (sum_plain "?" (likeConds "pubkey" _)) by (auto using likeConds_plain).
  rewrite (sum_plain "?" (kindConds _)) by (auto using kindConds_plain).
  assert (sum_list_with (countChar "?") (tagConds (flatten tagsRange))
          = length (flatten tagsRange)) as ->.
  { destruct (flatten tagsRange) as [|v vs] eqn:Hf; [done|].
    cbn [tagConds sum_list_with]. unfold overlapCond.
    rewrite !countChar_app, marks_question. simpl. lia. }
  destruct (Since filter), (Until filter); simpl; lia.
Qed.

Lemma conditions_dollar filter tagsRange :
  countChar "$" (Strings.Join (conditionsOf filter tagsRange) " AND ") = 0%nat.
Proof.
  rewrite countChar_Join by done. unfold conditionsOf, emitted.
  set (L := _ ++ _).
  transitivity (sum_list_with (countChar "$") L); [by destruct L|].
  unfold L. rewrite !sum_list_with_app.
  rewrite (sum_plain "$" (likeConds "id" _)) by (auto using likeConds_plain).
  rewrite (sum_plain "$" (likeConds "pubkey" _)) by (auto using likeConds_plain).
  rewrite (sum_plain "$" (kindConds _)) by (auto using kindConds_plain).
  assert (sum_list_with (countChar "$") (tagConds (flatten tagsRange)) = 0%nat) as ->.
  { destruct (flatten tagsRange) as [|v vs] eqn:Hf; [done|].
    cbn [tagConds sum_list_with]. unfold overlapCond.
    rewrite !countChar_app, marks_dollar. simpl. lia. }
  destruct (Since filter), (Until filter); simpl; lia.
Qed.

Lemma paramsOf_length b filter tagsRange :
  length (paramsOf b filter tagsRange) =
  S (length (flatten tagsRange) + length (timeParams (Since filter))
     + length (timeParams (Until filter))).
Proof. unfold paramsOf. rewrite !length_app, length_map. simpl. lia. Qed.

(** ** Rebind *)

Lemma rebindFrom_app bt j (s1 s2 : string) :
  Sqlx.rebindFrom bt j (s1 +:+ s2) =
  Sqlx.rebindFrom bt j s1 +:+ Sqlx.rebindFrom bt (j + Z.of_nat (countChar "?" s1)) s2.
Proof.
  revert j. induction s1 as [|c s1 IH]; intros j.
  - rewrite append_nil_l. cbn [countChar Sqlx.rebindFrom].
    by rewrite Z.add_0_r, append_nil_l.
  - rewrite append_cons. cbn [countChar Sqlx.rebindFrom].
    destruct (Ascii.eqb c "?").
    + rewrite IH, !append_assoc.
      by replace (j + Z.of_nat (1 + countChar "?" s1))
        with (j + 1 + Z.of_nat (countChar "?" s1)) by lia.
    + by rewrite IH, append_cons.
Qed.

Lemma rebindFrom_plain bt j (s : string) :
  countChar "?" s = 0%nat → Sqlx.rebindFrom bt j s = s.
Proof.
  induction s as [|c s IH]; [done|]. simpl.
  destruct (Ascii.eqb c "?"); [done|]. intros H. by rewrite IH.
Qed.

Lemma rebindFrom_dollars j (s : string) :
  countChar "$" (Sqlx.rebindFrom Sqlx.DOLLAR j s) =
  (countChar "$" s + countChar "?" s)%nat.
Proof.
  revert j. induction s as [|c s IH]; intros j; [done|]. simpl.
  destruct (Ascii.eqb_spec c "?") as [->|Hc].
  - rewrite !countChar_app, IH, Itoa_no by done. simpl. lia.
  - simpl. rewrite IH. lia.
Qed.

Lemma rebindFrom_no_question j (s : string) :
  countChar "?" (Sqlx.rebindFrom Sqlx.DOLLAR j s) = 0%nat.
Proof.
  revert j. induction s as [|c s IH]; intros j; [done|]. simpl.
  destruct (Ascii.eqb_spec c "?") as [->|Hc].
  - rewrite !countChar_app, IH, Itoa_no by done. done.
  - simpl. rewrite IH. by destruct (Ascii.eqb_spec c "?").
Qed.

(** ** The shape of the query text *)

Lemma select_no_question (doCount : bool) :
  countChar "?" (if doCount then selectCount else selectRows) = 0%nat.
Proof. by destruct doCount. Qed.

Lemma select_no_dollar (doCount : bool) :
  countChar "$" (if doCount then selectCount else selectRows) = 0%nat.
Proof. by destruct doCount. Qed.

(** Rebinding leaves the selection clause alone, numbers the placeholders
    of the conditions from 1 and gives the limit the last number. *)
Lemma queryText_shape b filter tagsRange (select : string) :
  countChar "?" select = 0%nat →
  Sqlx.rebindFrom Sqlx.DOLLAR 0
    (select +:+ Strings.Join (conditionsOf filter tagsRange) " AND " +:+ orderLimit)
  = select
    +:+ Sqlx.rebindFrom Sqlx.DOLLAR 0 (Strings.Join (conditionsOf filter tagsRange) " AND ")
    +:+ orderLimitBound (length (paramsOf b filter tagsRange)).
Proof.
  intros Hsel.
  rewrite rebindFrom_app, rebindFrom_plain, Hsel by done.
  rewrite rebindFrom_app, conditions_question, paramsOf_length.
  do 2 f_equal. unfold orderLimit, orderLimitBound.
  cbn [Sqlx.rebindFrom Ascii.eqb Bool.eqb Sqlx.bindPrefix].
  rewrite append_nil_r. str_norm. repeat f_equal. lia.
Qed.

Lemma queryEventsSql_text_nonempty b filter doCount tagsRange :
  rejected b filter tagsRange = false →
  (queryEventsSql b (Some filter) doCount tagsRange).1.1 ≠ "".
Proof.
  intros Hrej. rewrite queryEventsSql_spec, Hrej. cbn [fst]. intros H.
  apply (f_equal (countChar "$")) in H.
  rewrite rebindFrom_dollars, !countChar_app in H.
  change (countChar "?" orderLimit) with 1%nat in H.
  change (countChar "$" "") with 0%nat in H. lia.
Qed.

(** A compilation that returns a text went through no early return. *)
Lemma queryEventsSql_inv b filter doCount tagsRange q ps err :
  queryEventsSql b filter doCount tagsRange = (q, ps, err) → q ≠ "" →
  ∃ f, filter = Some f ∧ rejected b f tagsRange = false
       ∧ buildConditions b f tagsRange = Some (conditionsOf f tagsRange, paramsOf b f tagsRange)
       ∧ ps = paramsOf b f tagsRange ∧ err = None.
Proof.
  destruct filter as [f|]; [|simpl; intros [= <- _ _] Hne; done].
  intros Hq Hne. exists f. pose proof (buildConditions_spec b f tagsRange) as Hb.
  rewrite queryEventsSql_spec in Hq.
  destruct (rejected b f tagsRange); [by injection Hq as <- _ _|].
  by injection Hq as _ <- <-.
Qed.

Lemma buildConditions_inv b filter tagsRange conds ps :
  buildConditions b filter tagsRange = Some (conds, ps) →
  rejected b filter tagsRange = false
  ∧ conds = conditionsOf filter tagsRange ∧ ps = paramsOf b filter tagsRange.
Proof.
  rewrite buildConditions_spec.
  destruct (rejected b filter tagsRange); [done|]. by intros [= <- <-].
Qed.

(** ** The scenarios of the specification *)

Example scenario_kinds :
  queryEventsSql (limits0 dbEmpty) (Some fKind10) false []
  = (selectRows +:+ "kind IN (1) ORDER BY created_at DESC LIMIT $1",
     [AnyInt 10], None).
Proof. reflexivity. Qed.

Example scenario_not_hex :
  queryEventsSql (limits0 dbEmpty) (Some (withIDs noFilter (Some ["zz-not-hex"])))
    false []
  = ("", [], None).
Proof. reflexivity. Qed.

Example scenario_empty_tag :
  queryEventsSql (limits0 dbEmpty) (Some noFilter) false [("e", [])] = ("", [], None).
Proof. reflexivity. Qed.

Example scenario_window :
  queryEventsSql (limits0 dbEmpty) (Some fWindow) true []
  = (selectCount
     +:+ "created_at >= $1 AND created_at <= $2 ORDER BY created_at DESC LIMIT $3",
     [AnyTimestamp 1000; AnyTimestamp 2000; AnyInt 100], None).
Proof. reflexivity. Qed.

(** Upper-case digits are accepted by the decoder and come back in lower
    case; negative kinds keep their sign. *)
Example scenario_identity :
  buildConditions (limits0 dbEmpty)
    {| IDs := Some [hex64; "zz-not-hex"]; Authors := None; Kinds := Some [1; -2; 30];
       Tags := ∅; Since := None; Until := None; Limit := 5 |} rangeEP
  = Some (["(id LIKE '00112233445566778899aabbccddeeff00112233445566778899aabbccddeeff%')";
           "kind IN (1,-2,30)"; "tagvalues && ARRAY[?,?]"],
          [AnyString "a"; AnyString "b"; AnyInt 5]).
Proof. reflexivity. Qed.

(* ================================================================== *)
(** * The claims *)

(** C9. Compilation fails with "filter cannot be null" exactly when the
    filter is nil, and returns no error for any other filter; QueryEvents
    and CountEvents hand that error to the caller without calling the
    storage. *)
Theorem null_filter_only_error b (filter : option Filter) doCount tagsRange :
  ((queryEventsSql b filter doCount tagsRange).2 = Some (Errorf "filter cannot be null")
     ↔ filter = None)
  ∧ ((queryEventsSql b filter doCount tagsRange).2 = None ↔ filter ≠ None)
  ∧ QueryEvents b None tagsRange = ((None, Some (Errorf "filter cannot be null")), [])
  ∧ CountEvents b None tagsRange = ((0, Some (Errorf "filter cannot be null")), []).
Proof.
  repeat split; try done.
  - destruct filter as [f|]; [|done].
    rewrite queryEventsSql_spec. by destruct (rejected b f tagsRange).
  - intros ->. done.
  - destruct filter as [f|]; done.
  - destruct filter as [f|]; [|done]. intros _.
    rewrite queryEventsSql_spec. by destruct (rejected b f tagsRange).
Qed.



Lemma Rebind_postgres (query : string) :
  Sqlx.Rebind (Sqlx.BindType "postgres") query = Sqlx.rebindFrom Sqlx.DOLLAR 0 query.
Proof. reflexivity. Qed.

Lemma template_question b filter tagsRange (doCount : bool) :
  countChar "?" ((if doCount then selectCount else selectRows)
                 +:+ Strings.Join (conditionsOf filter tagsRange) " AND " +:+ orderLimit)
  = length (paramsOf b filter tagsRange).
Proof.
  rewrite !countChar_app, select_no_question, conditions_question, paramsOf_length.
  change (countChar "?" orderLimit) with 1%nat. lia.
Qed.

Lemma template_dollar filter tagsRange (doCount : bool) :
  countChar "$" ((if doCount then selectCount else selectRows)
                 +:+ Strings.Join (conditionsOf filter tagsRange) " AND " +:+ orderLimit)
  = 0%nat.
Proof.
  rewrite !countChar_app, select_no_dollar, conditions_dollar.
  by change (countChar "$" orderLimit) with 0%nat.
Qed.

(** C10. Whenever compilation returns a query text: the text has as many
    placeholders as there are parameters (one question mark each before
    rebinding, one dollar sign each after, and no question mark left);
    the parameter list is not empty and ends with the resolved limit; and
    it consists of the tag values, since, until and the limit only. *)
Theorem placeholders_match_params b (filter : option Filter) doCount tagsRange q ps err :
  queryEventsSql b filter doCount tagsRange = (q, ps, err) → q ≠ "" →
  ∃ f template,
    filter = Some f
    ∧ q = Sqlx.Rebind (Sqlx.BindType "postgres") template
    ∧ countChar "?" template = length ps ∧ countChar "$" template = 0%nat
    ∧ placeholders q = length ps ∧ countChar "?" q = 0%nat
    ∧ ps ≠ []
    ∧ last ps = Some (AnyInt (resolvedLimit b f))
    ∧ ps = map AnyString (flatten tagsRange) ++ timeParams (Since f)
           ++ timeParams (Until f) ++ [AnyInt (resolvedLimit b f)].
Proof.
  intros Hq Hne.
  destruct (queryEventsSql_inv _ _ _ _ _ _ _ Hq Hne) as (f & -> & Hrej & _ & -> & _).
  rewrite queryEventsSql_spec, Hrej in Hq. injection Hq as <- _.
  exists f, ((if doCount then selectCount else selectRows)
             +:+ Strings.Join (conditionsOf f tagsRange) " AND " +:+ orderLimit).
  rewrite Rebind_postgres. unfold placeholders.
  rewrite rebindFrom_dollars, rebindFrom_no_question.
  rewrite (template_question b), template_dollar.
  repeat split; try done.
  - intros Hnil%(f_equal length). rewrite paramsOf_length in Hnil. done.
  - unfold paramsOf. by rewrite !app_assoc, last_snoc.
Qed.

Lemma placeholders_match_params_witness :
  ∃ f template,
    Some fWindow = Some f
    ∧ (queryEventsSql (limits0 dbEmpty) (Some fWindow) true []).1.1
      = Sqlx.Rebind (Sqlx.BindType "postgres") template
    ∧ countChar "?" template = 3%nat ∧ countChar "$" template = 0%nat
    ∧ placeholders (queryEventsSql (limits0 dbEmpty) (Some fWindow) true []).1.1 = 3%nat
    ∧ countChar "?" (queryEventsSql (limits0 dbEmpty) (Some fWindow) true []).1.1 = 0%nat
    ∧ [AnyTimestamp 1000; AnyTimestamp 2000; AnyInt 100] ≠ []
    ∧ last [AnyTimestamp 1000; AnyTimestamp 2000; AnyInt 100]
      = Some (AnyInt (resolvedLimit (limits0 dbEmpty) f))
    ∧ [AnyTimestamp 1000; AnyTimestamp 2000; AnyInt 100]
      = map AnyString (flatten []) ++ timeParams (Since f)
        ++ timeParams (Until f) ++ [AnyInt (resolvedLimit (limits0 dbEmpty) f)].
Proof.
  apply (placeholders_match_params (limits0 dbEmpty) (Some fWindow) true []
           (queryEventsSql (limits0 dbEmpty) (Some fWindow) true []).1.1
           [AnyTimestamp 1000; AnyTimestamp 2000; AnyInt 100] None).
  - reflexivity.
  - vm_compute. intros H. discriminate H.
Defined.

(** ** Telling the conditions apart *)

Lemma headChar_likeConds column (dim : option (list string)) :
  Forall (λ e, headChar e = Some "("%char) (likeConds column dim).
Proof. destruct dim; repeat constructor. Qed.

Lemma headChar_kindConds (dim : option (list Z)) :
  Forall (λ e, headChar e = Some "k"%char) (kindConds dim).
Proof. destruct dim; repeat constructor. Qed.

Lemma filter_none {A} (P : A → Prop) `{∀ x, Decision (P x)} (l : list A) :
  Forall (λ x, ¬ P x) l → filter P l = [].
Proof.
  induction 1 as [|x l Hx _ IH]; [done|].
  by rewrite filter_cons, decide_False, IH.
Qed.

Lemma filter_orTrue (P : string → Prop) `{∀ x, Decision (P x)} (l : list string) :
  ¬ P "true" → filter P (orTrue l) = filter P l.
Proof.
  intros Hnot. destruct l; [|done].
  simpl. by rewrite filter_cons, decide_False.
Qed.

Lemma prefix_app (s t : string) : String.prefix s (s +:+ t) = true.
Proof.
  induction s as [|c s IH]; [by destruct t|].
  rewrite append_cons. simpl. by destruct (ascii_dec c c).
Qed.

Lemma prefix_headChar (s t : string) c :
  String.prefix (String c s) t = true → headChar t = Some c.
Proof.
  destruct t as [|c' t]; [done|]. simpl.
  destruct (ascii_dec c c') as [->|]; done.
Qed.

Lemma marks_replicate (values : list string) :
  map (λ _, "?") values = replicate (length values) "?".
Proof. induction values as [|v values IH]; simpl; [done | by rewrite IH]. Qed.


(** The conditions that open like the overlap condition: only the
    overlap condition itself does. *)
Lemma filter_overlap_condition filter tagsRange :
  base.filter (λ c, String.prefix "tagvalues && ARRAY[" c = true)
    (conditionsOf filter tagsRange)
  = tagConds (flatten tagsRange).
Proof.
  unfold conditionsOf, emitted.
  rewrite filter_orTrue by done.
  rewrite !filter_app.
  rewrite (filter_none _ (likeConds "id" _)), (filter_none _ (likeConds "pubkey" _)),
    (filter_none _ (kindConds _)), (filter_none _ (sinceConds _)),
    (filter_none _ (untilConds _)); [| | | | |].
  - rewrite app_nil_r. simpl. destruct (flatten tagsRange) as [|v vs]; [done|].
    cbn [tagConds]. rewrite filter_cons, decide_True; [done|].
    apply prefix_app.
  - destruct (Until filter); repeat constructor. done.
  - destruct (Since filter); repeat constructor. done.
  - eapply Forall_impl; [apply headChar_kindConds|].
    intros e He Hp%prefix_headChar. congruence.
  - eapply Forall_impl; [apply headChar_likeConds|].
    intros e He Hp%prefix_headChar. congruence.
  - eapply Forall_impl; [apply headChar_likeConds|].
    intros e He Hp%prefix_headChar. congruence.
Qed.






(** ** The tags *)

Lemma someTagEmpty_true_iff (tagsRange : list (string * list string)) :
  someTagEmpty tagsRange = true ↔ ∃ name, (name, []) ∈ tagsRange.
Proof.
  induction tagsRange as [|[name values] rest IH]; simpl.
  - split; [done | by intros [? ?%elem_of_nil]].
  - rewrite orb_true_iff, IH, length_zero_iff_nil. split.
    + intros [->|[n Hn]]; [exists name; left | exists n; by right].
    + intros [n [[= -> ->]|Hn]%elem_of_cons]; [by left | right; by exists n].
Qed.

Lemma someTagEmpty_snd (tr1 tr2 : list (string * list string)) :
  map snd tr1 = map snd tr2 → someTagEmpty tr1 = someTagEmpty tr2.
Proof.
  revert tr2. induction tr1 as [|[n1 v1] tr1 IH]; intros [|[n2 v2] tr2]; try done.
  simpl. intros [= -> H]. by rewrite (IH _ H).
Qed.

Lemma someTagEmpty_perm (tr1 tr2 : list (string * list string)) :
  tr1 ≡ₚ tr2 → someTagEmpty tr1 = someTagEmpty tr2.
Proof.
  intros Hp. apply eq_true_iff_eq. rewrite !someTagEmpty_true_iff.
  by setoid_rewrite Hp.
Qed.

Lemma flatten_perm (tr1 tr2 : list (string * list string)) :
  tr1 ≡ₚ tr2 → flatten tr1 ≡ₚ flatten tr2.
Proof.
  unfold flatten. induction 1 as [|x l1 l2 _ IH|x y l|l1 l2 l3 _ IH1 _ IH2]; simpl.
  - done.
  - by rewrite IH.
  - rewrite !app_assoc. f_equiv. apply Permutation_app_comm.
  - by rewrite IH1.
Qed.

Lemma tagsOverLimit_length limit (tr1 tr2 : list (string * list string)) :
  length tr1 = length tr2 → length (flatten tr1) = length (flatten tr2) →
  tagsOverLimit limit tr1 = tagsOverLimit limit tr2.
Proof. destruct tr1, tr2; simpl; try done. by intros _ ->. Qed.

(** The compilation depends on the iteration over the tags only through
    three things: whether a value list is empty, how many entries and
    values there are, and the flattened values that become parameters. *)
Lemma queryEventsSql_tags b filter doCount (tr1 tr2 : list (string * list string)) :
  someTagEmpty tr1 = someTagEmpty tr2 → length tr1 = length tr2 →
  length (flatten tr1) = length (flatten tr2) →
  rejected b filter tr1 = rejected b filter tr2
  ∧ conditionsOf filter tr1 = conditionsOf filter tr2
  ∧ (queryEventsSql b (Some filter) doCount tr1).1.1
    = (queryEventsSql b (Some filter) doCount tr2).1.1.
Proof.
  intros Hempty Hlen Hflat.
  assert (Hrej : rejected b filter tr1 = rejected b filter tr2).
  { unfold rejected. by rewrite Hempty, (tagsOverLimit_length _ tr1 tr2). }
  assert (Hconds : conditionsOf filter tr1 = conditionsOf filter tr2).
  { unfold conditionsOf, emitted. do 4 f_equal.
    destruct (flatten tr1) as [|v1 l1], (flatten tr2) as [|v2 l2]; try done.
    unfold tagConds, overlapCond. by rewrite !marks_replicate, Hflat. }
  split_and!; [done | done |].
  rewrite !queryEventsSql_spec, Hrej, Hconds.
  by destruct (rejected b filter tr2).
Qed.

Lemma rejected_empty b filter doCount tagsRange :
  rejected b filter tagsRange = true →
  queryEventsSql b (Some filter) doCount tagsRange = ("", [], None).
Proof. intros H. by rewrite queryEventsSql_spec, H. Qed.

(** C7. Tag names play no part: the compilation depends on the value
    lists only, flattened in the order of the iteration.  A tag with an
    empty value list, or more flattened values than QueryTagsLimit, gives
    the empty outcome.  Otherwise a non-empty flattened sequence emits
    exactly one overlap condition, with one placeholder per value, and the
    values open the parameter list in order; an empty one emits none. *)
Theorem tags_flattened_into_one_overlap b filter tagsRange :
  rangeOf (Tags filter) tagsRange → 0 ≤ QueryTagsLimit b →
  (∀ renamed doCount, map snd renamed = map snd tagsRange →
     queryEventsSql b (Some filter) doCount renamed
     = queryEventsSql b (Some filter) doCount tagsRange)
  ∧ ((∃ name, Tags filter !! name = Some []) →
     ∀ doCount, queryEventsSql b (Some filter) doCount tagsRange = ("", [], None))
  ∧ (QueryTagsLimit b < Z.of_nat (length (flatten tagsRange)) →
     ∀ doCount, queryEventsSql b (Some filter) doCount tagsRange = ("", [], None))
  ∧ (∀ conditions params,
       buildConditions b filter tagsRange = Some (conditions, params) →
       base.filter (λ c, String.prefix "tagvalues && ARRAY[" c = true) conditions
       = match flatten tagsRange with
         | [] => []
         | values =>
             ["tagvalues && ARRAY["
              +:+ Strings.Join (replicate (length values) "?") "," +:+ "]"]
         end
       ∧ take (length (flatten tagsRange)) params
         = map AnyString (flatten tagsRange)).
Proof.
  intros Hrange Hlimit. split_and!.
  - intros renamed doCount Hsnd.
    assert (Hflat : flatten renamed = flatten tagsRange)
      by (unfold flatten; by rewrite Hsnd).
    assert (Hlen : length renamed = length tagsRange)
      by (by rewrite <- (length_map snd renamed), Hsnd, length_map).
    destruct (queryEventsSql_tags b filter doCount renamed tagsRange)
      as (Hrej & Hconds & _);
      [by apply someTagEmpty_snd | done | by rewrite Hflat |].
    rewrite !queryEventsSql_spec, Hrej, Hconds.
    unfold paramsOf. by rewrite Hflat.
  - intros [name Hname] doCount. apply rejected_empty.
    assert (someTagEmpty tagsRange = true) as Hempty.
    { apply someTagEmpty_true_iff. exists name.
      unfold rangeOf in Hrange. rewrite Hrange.
      by apply elem_of_map_to_list. }
    unfold rejected. by rewrite Hempty, !orb_true_r.
  - intros Hover doCount. apply rejected_empty.
    assert (tagsOverLimit (QueryTagsLimit b) tagsRange = true) as Hgt.
    { destruct tagsRange as [|e rest]; [simpl in Hover; lia|].
      cbn [tagsOverLimit]. apply Z.gtb_lt. lia. }
    unfold rejected. by rewrite Hgt, !orb_true_r.
  - intros conditions params (Hrej & -> & ->)%buildConditions_inv.
    rewrite filter_overlap_condition. split.
    + destruct (flatten tagsRange) as [|v vs]; [done|].
      unfold tagConds, overlapCond. by rewrite marks_replicate.
    + unfold paramsOf.
      rewrite take_app_le by (by rewrite length_map).
      apply take_ge. by rewrite length_map.
Qed.

Lemma tags_flattened_into_one_overlap_witness :
  base.filter (λ c, String.prefix "tagvalues && ARRAY[" c = true)
    ["tagvalues && ARRAY[?,?]"]
  = ["tagvalues && ARRAY[?,?]"]
  ∧ take 2 [AnyString "a"; AnyString "b"; AnyInt 100]
    = [AnyString "a"; AnyString "b"].
Proof.
  assert (Hrange : rangeOf (Tags fTwoTags) rangeEP) by (vm_compute; reflexivity).
  assert (Hlimit : 0 ≤ QueryTagsLimit (limits0 dbEmpty)) by (simpl; lia).
  destruct (tags_flattened_into_one_overlap (limits0 dbEmpty) fTwoTags rangeEP
              Hrange Hlimit) as (_ & _ & _ & Hcond).
  apply (Hcond ["tagvalues && ARRAY[?,?]"] [AnyString "a"; AnyString "b"; AnyInt 100]).
  reflexivity.
Defined.

(** ** Ids and authors *)

Lemma rejected_false_inv b filter tagsRange :
  rejected b filter tagsRange = false →
  (overLimit (QueryIDsLimit b) (IDs filter) = false ∧ noneValid (IDs filter) = false)
  ∧ (overLimit (QueryAuthorsLimit b) (Authors filter) = false
     ∧ noneValid (Authors filter) = false)
  ∧ (overLimit (QueryKindsLimit b) (Kinds filter) = false
     ∧ presentEmpty (Kinds filter) = false)
  ∧ someTagEmpty tagsRange = false
  ∧ tagsOverLimit (QueryTagsLimit b) tagsRange = false.
Proof. unfold rejected. rewrite !orb_false_iff. tauto. Qed.

Lemma survivors_valid (entries : list string) :
  survivors (valid entries) = survivors entries.
Proof.
  unfold survivors, valid. f_equal.
  induction entries as [|e entries IH]; [done|].
  rewrite !filter_cons. destruct (decide (validEntry e = true)) as [He|He].
  - by rewrite filter_cons, decide_True, IH.
  - done.
Qed.

Lemma noneValid_valid (entries : list string) :
  noneValid (Some (valid entries)) = noneValid (Some entries).
Proof.
  apply eq_true_iff_eq. simpl.
  by rewrite <- !survivors_nil_iff, survivors_valid.
Qed.

Lemma valid_length (entries : list string) :
  (length (valid entries) ≤ length entries)%nat.
Proof. apply length_filter. Qed.

Lemma valid_nil_noneValid (entries : list string) :
  valid entries = [] → noneValid (Some entries) = true.
Proof.
  intros H. simpl. apply survivors_nil_iff. unfold survivors.
  fold (valid entries). by rewrite H.
Qed.

(** C5. In a compiled query the conditions open with the group for the
    ids and the group for the authors (each only if the dimension is
    present).  A group is the parenthesised OR of one prefix match per
    surviving entry; the literal of a prefix match is the lower-case hex of
    the 32 decoded bytes, 64 characters of [0-9a-f], followed by the
    wildcard.  The literals are part of the text: the parameter list is
    the one of the same filter without ids and authors. *)
Theorem identity_conditions_embed_hex_literals b filter tagsRange conditions params :
  buildConditions b filter tagsRange = Some (conditions, params) →
  (∃ rest, conditions = likeConds "id" (IDs filter)
                        ++ likeConds "pubkey" (Authors filter) ++ rest)
  ∧ (∀ ids, IDs filter = Some ids →
       likeConds "id" (IDs filter)
       = ["(" +:+ Strings.Join
                    (map (λ literal, "id LIKE '" +:+ literal +:+ "%'") (survivors ids))
                    " OR " +:+ ")"]
       ∧ survivors ids ≠ []
       ∧ Forall (λ literal, lowerHex64 literal = true) (survivors ids))
  ∧ (∀ authors, Authors filter = Some authors →
       likeConds "pubkey" (Authors filter)
       = ["(" +:+ Strings.Join
                    (map (λ literal, "pubkey LIKE '" +:+ literal +:+ "%'")
                       (survivors authors))
                    " OR " +:+ ")"]
       ∧ survivors authors ≠ []
       ∧ Forall (λ literal, lowerHex64 literal = true) (survivors authors))
  ∧ (∃ conditions',
       buildConditions b (withAuthors (withIDs filter None) None) tagsRange
       = Some (conditions', params)).
Proof.
  intros (Hrej & -> & ->)%buildConditions_inv.
  apply rejected_false_inv in Hrej
    as ((_ & Hids) & (_ & Hauthors) & (Hk1 & Hk2) & Ht1 & Ht2).
  split_and!.
  - unfold conditionsOf, emitted.
    destruct (likeConds "id" (IDs filter) ++ _) as [|c l] eqn:He.
    + apply app_eq_nil in He as [-> He]. apply app_eq_nil in He as [-> _].
      by exists ["true"].
    + cbn [orTrue]. rewrite <- He. eauto.
  - intros ids Hsome. rewrite Hsome in Hids |- *. split_and!.
    + done.
    + intros Hnil%survivors_nil_iff. simpl in Hids. congruence.
    + apply survivors_lowerHex64.
  - intros authors Hsome. rewrite Hsome in Hauthors |- *. split_and!.
    + done.
    + intros Hnil%survivors_nil_iff. simpl in Hauthors. congruence.
    + apply survivors_lowerHex64.
  - eexists. rewrite buildConditions_spec.
    unfold rejected. cbn [withAuthors withIDs IDs Authors Kinds overLimit noneValid orb].
    by rewrite Hk1, Hk2, Ht1, Ht2.
Qed.

Lemma identity_conditions_embed_hex_literals_witness :
  likeConds "id" (IDs fIdentity)
  = ["(id LIKE '00112233445566778899aabbccddeeff00112233445566778899aabbccddeeff%')"]
  ∧ Forall (λ literal, lowerHex64 literal = true) (survivors [hex64; "zz-not-hex"]).
Proof.
  destruct (identity_conditions_embed_hex_literals (limits0 dbEmpty) fIdentity []
              (conditionsOf fIdentity []) (paramsOf (limits0 dbEmpty) fIdentity []))
    as (_ & Hids & _); [reflexivity|].
  destruct (Hids [hex64; "zz-not-hex"]) as (Hgroup & _ & Hhex); [reflexivity|].
  split; [exact Hgroup | exact Hhex].
Defined.

Lemma overLimit_le {A} limit (l : list A) :
  Z.of_nat (length l) ≤ limit → overLimit limit (Some l) = false.
Proof. intros H. simpl. rewrite Z.gtb_ltb. apply Z.ltb_ge. lia. Qed.

Lemma overLimit_gt {A} limit (l : list A) :
  limit < Z.of_nat (length l) → overLimit limit (Some l) = true.
Proof. intros H. simpl. by apply Z.gtb_lt. Qed.

(** C6. An ids entry that does not decode to exactly 32 bytes is dropped
    without an error: within the limit, the compilation of a filter is the
    compilation of the same filter with only the valid entries.  When no
    entry is valid the outcome is the empty one.  The limit is compared
    with the number of entries as requested: more entries than
    QueryIDsLimit give the empty outcome, however few of them are valid.
    The same holds for authors and QueryAuthorsLimit. *)
Theorem invalid_entries_silently_dropped b filter doCount tagsRange entries :
  ((queryEventsSql b (Some (withIDs filter (Some entries))) doCount tagsRange).2 = None
   ∧ (Z.of_nat (length entries) ≤ QueryIDsLimit b →
      queryEventsSql b (Some (withIDs filter (Some entries))) doCount tagsRange
      = queryEventsSql b (Some (withIDs filter (Some (valid entries)))) doCount tagsRange)
   ∧ (valid entries = [] →
      queryEventsSql b (Some (withIDs filter (Some entries))) doCount tagsRange
      = ("", [], None))
   ∧ (QueryIDsLimit b < Z.of_nat (length entries) →
      queryEventsSql b (Some (withIDs filter (Some entries))) doCount tagsRange
      = ("", [], None)))
  ∧ ((queryEventsSql b (Some (withAuthors filter (Some entries))) doCount tagsRange).2 = None
     ∧ (Z.of_nat (length entries) ≤ QueryAuthorsLimit b →
        queryEventsSql b (Some (withAuthors filter (Some entries))) doCount tagsRange
        = queryEventsSql b (Some (withAuthors filter (Some (valid entries)))) doCount
            tagsRange)
     ∧ (valid entries = [] →
        queryEventsSql b (Some (withAuthors filter (Some entries))) doCount tagsRange
        = ("", [], None))
     ∧ (QueryAuthorsLimit b < Z.of_nat (length entries) →
        queryEventsSql b (Some (withAuthors filter (Some entries))) doCount tagsRange
        = ("", [], None))).
Proof.
  split; split_and!.
  - rewrite queryEventsSql_spec. by destruct (rejected _ _ _).
  - intros Hle. rewrite !queryEventsSql_spec.
    unfold rejected, conditionsOf, emitted, paramsOf, resolvedLimit, likeConds.
    cbn [withIDs IDs Authors Kinds Since Until Limit].
    pose proof (valid_length entries).
    rewrite !overLimit_le by lia.
    by rewrite noneValid_valid, survivors_valid.
  - intros Hnil%valid_nil_noneValid. apply rejected_empty.
    unfold rejected. cbn [withIDs IDs]. rewrite Hnil. by rewrite orb_true_r.
  - intros Hgt%overLimit_gt. apply rejected_empty.
    unfold rejected. cbn [withIDs IDs]. by rewrite Hgt.
  - rewrite queryEventsSql_spec. by destruct (rejected _ _ _).
  - intros Hle. rewrite !queryEventsSql_spec.
    unfold rejected, conditionsOf, emitted, paramsOf, resolvedLimit, likeConds.
    cbn [withAuthors IDs Authors Kinds Since Until Limit].
    pose proof (valid_length entries).
    rewrite !(overLimit_le (QueryAuthorsLimit b)) by lia.
    by rewrite noneValid_valid, survivors_valid.
  - intros Hnil%valid_nil_noneValid. apply rejected_empty.
    unfold rejected. cbn [withAuthors Authors]. rewrite Hnil. by rewrite !orb_true_r.
  - intros Hgt%overLimit_gt. apply rejected_empty.
    unfold rejected. cbn [withAuthors Authors]. rewrite Hgt. by rewrite !orb_true_r.
Qed.

Lemma invalid_entries_silently_dropped_witness :
  queryEventsSql (limits0 dbEmpty) (Some (withIDs noFilter (Some [hex64; "zz-not-hex"])))
    false []
  = queryEventsSql (limits0 dbEmpty) (Some (withIDs noFilter (Some [hex64]))) false []
  ∧ queryEventsSql (limits0 dbEmpty) (Some (withIDs noFilter (Some ["zz-not-hex"])))
      false []
    = ("", [], None).
Proof.
  split.
  - destruct (invalid_entries_silently_dropped (limits0 dbEmpty) noFilter false []
                [hex64; "zz-not-hex"]) as ((_ & Hdrop & _) & _).
    apply Hdrop. simpl. lia.
  - destruct (invalid_entries_silently_dropped (limits0 dbEmpty) noFilter false []
                ["zz-not-hex"]) as ((_ & _ & Hnone & _) & _).
    apply Hnone. reflexivity.
Defined.

(** ** The callers *)

Lemma QueryEvents_rejected b filter tagsRange :
  rejected b filter tagsRange = true →
  QueryEvents b (Some filter) tagsRange =
  let '(rows, err) := Query (db b) "" [] in
  match err with
  | Some (ErrDriver msg) => ((None, Some (ErrFetch "" (ErrDriver msg))), [("", [])])
  | _ => ((Some (produce rows), None), [("", [])])
  end.
Proof. intros H. unfold QueryEvents. by rewrite (rejected_empty _ _ _ _ H). Qed.

Lemma CountEvents_rejected b filter tagsRange :
  rejected b filter tagsRange = true →
  CountEvents b (Some filter) tagsRange =
  match QueryRowScan (db b) "" [] with
  | inl n => ((n, None), [("", [])])
  | inr ErrNoRows => ((0, None), [("", [])])
  | inr (ErrDriver msg) => ((0, Some (ErrFetch "" (ErrDriver msg))), [("", [])])
  end.
Proof. intros H. unfold CountEvents. by rewrite (rejected_empty _ _ _ _ H). Qed.

Lemma presentEmpty_noneValid (dim : option (list string)) :
  presentEmpty dim = true → noneValid dim = true.
Proof. by destruct dim as [[|e l]|]. Qed.

(** C1, as the code has it.  For a filter in which ids, authors or kinds
    is present but empty or has more elements than its limit, or in which
    a tag has an empty value list or the tag values outnumber
    QueryTagsLimit, queryEventsSql returns the empty text, no parameter
    and no error.  QueryEvents and CountEvents do not stop there: each
    makes one call on the storage handle, with the empty text and no
    argument.  When the storage answers that call with no rows,
    QueryEvents delivers no event and CountEvents returns 0, both without
    error; an error of the storage on that call other than "no rows" is
    returned to the caller. *)
Theorem rejected_filter_sends_empty_query b filter tagsRange :
  rangeOf (Tags filter) tagsRange → 0 ≤ QueryTagsLimit b →
  presentEmpty (IDs filter) = true ∨ overLimit (QueryIDsLimit b) (IDs filter) = true
  ∨ presentEmpty (Authors filter) = true
  ∨ overLimit (QueryAuthorsLimit b) (Authors filter) = true
  ∨ presentEmpty (Kinds filter) = true
  ∨ overLimit (QueryKindsLimit b) (Kinds filter) = true
  ∨ (∃ name, Tags filter !! name = Some [])
  ∨ QueryTagsLimit b < Z.of_nat (length (flatten tagsRange)) →
  (∀ doCount, queryEventsSql b (Some filter) doCount tagsRange = ("", [], None))
  ∧ (QueryEvents b (Some filter) tagsRange).2 = [("", [])]
  ∧ (CountEvents b (Some filter) tagsRange).2 = [("", [])]
  ∧ (Query (db b) "" [] = (Some [], None) →
     (QueryEvents b (Some filter) tagsRange).1 = (Some (Delivered []), None))
  ∧ (QueryRowScan (db b) "" [] = inr ErrNoRows →
     (CountEvents b (Some filter) tagsRange).1 = (0, None))
  ∧ (∀ rows msg, Query (db b) "" [] = (rows, Some (ErrDriver msg)) →
     (QueryEvents b (Some filter) tagsRange).1
     = (None, Some (ErrFetch "" (ErrDriver msg))))
  ∧ (∀ msg, QueryRowScan (db b) "" [] = inr (ErrDriver msg) →
     (CountEvents b (Some filter) tagsRange).1
     = (0, Some (ErrFetch "" (ErrDriver msg)))).
Proof.
  intros Hrange Hlimit Hcase.
  assert (Hrej : rejected b filter tagsRange = true).
  { unfold rejected.
    destruct Hcase as [H|[H|[H|[H|[H|[H|[H|H]]]]]]].
    - by rewrite (presentEmpty_noneValid _ H), orb_true_r.
    - by rewrite H.
    - by rewrite (presentEmpty_noneValid _ H), !orb_true_r.
    - by rewrite H, !orb_true_r.
    - by rewrite H, !orb_true_r.
    - by rewrite H, !orb_true_r.
    - destruct H as [name Hname].
      assert (someTagEmpty tagsRange = true) as ->; [|by rewrite !orb_true_r].
      apply someTagEmpty_true_iff. exists name.
      unfold rangeOf in Hrange. rewrite Hrange. by apply elem_of_map_to_list.
    - assert (tagsOverLimit (QueryTagsLimit b) tagsRange = true) as ->;
        [|by rewrite !orb_true_r].
      destruct tagsRange as [|e rest]; [simpl in H; lia|].
      cbn [tagsOverLimit]. apply Z.gtb_lt. lia. }
  rewrite (QueryEvents_rejected _ _ _ Hrej), (CountEvents_rejected _ _ _ Hrej).
  split_and!.
  - intros doCount. by apply rejected_empty.
  - by destruct (Query (db b) "" []) as [rows [[|msg]|]].
  - by destruct (QueryRowScan (db b) "" []) as [n|[|msg]].
  - by intros ->.
  - by intros ->.
  - by intros rows msg ->.
  - by intros msg ->.
Qed.

Lemma rejected_filter_sends_empty_query_witness :
  (QueryEvents (limits0 dbEmpty) (Some fEmptyIDs) []).2 = [("", [])]
  ∧ (QueryEvents (limits0 dbEmpty) (Some fEmptyIDs) []).1 = (Some (Delivered []), None)
  ∧ (CountEvents (limits0 dbEmpty) (Some fEmptyIDs) []).1 = (0, None).
Proof.
  assert (Hrange : rangeOf (Tags fEmptyIDs) []) by (vm_compute; reflexivity).
  assert (Hlimit : 0 ≤ QueryTagsLimit (limits0 dbEmpty)) by (simpl; lia).
  destruct (rejected_filter_sends_empty_query (limits0 dbEmpty) fEmptyIDs []
              Hrange Hlimit) as (_ & Hcalls & _ & Hrows & Hcount & _).
  { left. reflexivity. }
  split_and!; [exact Hcalls | apply Hrows; reflexivity | apply Hcount; reflexivity].
Defined.

(** C1 as stated fails: with ids present and empty, QueryEvents and
    CountEvents each make a call on the storage handle. *)
Lemma empty_ids_still_reach_storage :
  presentEmpty (IDs fEmptyIDs) = true
  ∧ (QueryEvents (limits0 dbEmpty) (Some fEmptyIDs) []).2 = [("", [])]
  ∧ (CountEvents (limits0 dbEmpty) (Some fEmptyIDs) []).2 = [("", [])]
  ∧ (QueryEvents (limits0 dbEmpty) (Some fEmptyIDs) []).2 ≠ []
  ∧ (CountEvents (limits0 dbEmpty) (Some fEmptyIDs) []).2 ≠ [].
Proof. split_and!; try reflexivity; intros H; discriminate H. Qed.

(** C2, as the code has it.  Over any two iteration orders of the tags of
    one filter the compilation returns the same text and the same error;
    the parameter lists hold the same values, the tag values in the order
    of the iteration followed by the same since, until and limit: when a
    text is returned, each list is the flattened tag values of its own
    iteration, then since, until and the limit.  With at most one tag the
    whole result is the same. *)
Theorem compilation_deterministic_up_to_tag_order b filter doCount tr1 tr2 :
  rangeOf (Tags filter) tr1 → rangeOf (Tags filter) tr2 →
  (queryEventsSql b (Some filter) doCount tr1).1.1
  = (queryEventsSql b (Some filter) doCount tr2).1.1
  ∧ (queryEventsSql b (Some filter) doCount tr1).2
    = (queryEventsSql b (Some filter) doCount tr2).2
  ∧ (queryEventsSql b (Some filter) doCount tr1).1.2
    ≡ₚ (queryEventsSql b (Some filter) doCount tr2).1.2
  ∧ drop (length (flatten tr1)) (queryEventsSql b (Some filter) doCount tr1).1.2
    = drop (length (flatten tr2)) (queryEventsSql b (Some filter) doCount tr2).1.2
  ∧ ((size (Tags filter) ≤ 1)%nat →
     queryEventsSql b (Some filter) doCount tr1
     = queryEventsSql b (Some filter) doCount tr2)
  ∧ ((queryEventsSql b (Some filter) doCount tr1).1.1 ≠ "" →
     (queryEventsSql b (Some filter) doCount tr1).1.2
     = map AnyString (flatten tr1) ++ timeParams (Since filter)
       ++ timeParams (Until filter) ++ [AnyInt (resolvedLimit b filter)]
     ∧ (queryEventsSql b (Some filter) doCount tr2).1.2
       = map AnyString (flatten tr2) ++ timeParams (Since filter)
         ++ timeParams (Until filter) ++ [AnyInt (resolvedLimit b filter)]).
Proof.
  unfold rangeOf. intros H1 H2.
  assert (Hp : tr1 ≡ₚ tr2) by (by rewrite H1, H2).
  pose proof (flatten_perm _ _ Hp) as Hflat.
  destruct (queryEventsSql_tags b filter doCount tr1 tr2) as (Hrej & Hconds & Htext);
    [by apply someTagEmpty_perm | by rewrite Hp | by rewrite Hflat |].
  split_and!; [done | | | | |].
  - rewrite !queryEventsSql_spec, Hrej. by destruct (rejected b filter tr2).
  - rewrite !queryEventsSql_spec, Hrej. destruct (rejected b filter tr2); [done|].
    cbn [fst snd]. unfold paramsOf. by rewrite Hflat.
  - rewrite !queryEventsSql_spec, Hrej. destruct (rejected b filter tr2).
    + cbn [fst snd]. by rewrite !drop_nil.
    + cbn [fst snd]. unfold paramsOf.
      by rewrite !drop_app_length' by (by rewrite length_map).
  - intros Hsize. replace tr2 with tr1; [done|].
    assert (Hlen : (length tr1 ≤ 1)%nat).
    { by rewrite H1, length_map_to_list. }
    destruct tr1 as [|e [|e' tr1]]; [| |simpl in Hlen; lia].
    + symmetry. by apply Permutation_nil.
    + symmetry. by apply Permutation_length_1_inv.
  - rewrite !queryEventsSql_spec, Hrej.
    destruct (rejected b filter tr2); [by intros Hne|]. by intros _.
Qed.

Lemma compilation_deterministic_up_to_tag_order_witness :
  (queryEventsSql (limits0 dbEmpty) (Some fTwoTags) false rangeEP).1.1
  = (queryEventsSql (limits0 dbEmpty) (Some fTwoTags) false rangePE).1.1
  ∧ [AnyString "a"; AnyString "b"; AnyInt 100]
    ≡ₚ [AnyString "b"; AnyString "a"; AnyInt 100]
  ∧ (queryEventsSql (limits0 dbEmpty) (Some fTwoTags) false rangeEP).1.2
    = [AnyString "a"; AnyString "b"; AnyInt 100]
  ∧ (queryEventsSql (limits0 dbEmpty) (Some fTwoTags) false rangePE).1.2
    = [AnyString "b"; AnyString "a"; AnyInt 100].
Proof.
  assert (H1 : rangeOf (Tags fTwoTags) rangeEP) by (vm_compute; reflexivity).
  assert (H2 : rangeOf (Tags fTwoTags) rangePE) by (vm_compute; apply perm_swap).
  destruct (compilation_deterministic_up_to_tag_order (limits0 dbEmpty) fTwoTags
              false rangeEP rangePE H1 H2) as (Htext & _ & Hparams & _ & _ & Horder).
  destruct Horder as [Hfirst Hsecond].
  { vm_compute. intros H. discriminate H. }
  split_and!; [exact Htext | exact Hparams | exact Hfirst | exact Hsecond].
Defined.

(** C2 as stated fails: two iteration orders of the same two tags give
    two different parameter lists. *)
Lemma tag_order_changes_parameter_list :
  rangeOf (Tags fTwoTags) rangeEP ∧ rangeOf (Tags fTwoTags) rangePE
  ∧ (queryEventsSql (limits0 dbEmpty) (Some fTwoTags) false rangeEP).1.2
    = [AnyString "a"; AnyString "b"; AnyInt 100]
  ∧ (queryEventsSql (limits0 dbEmpty) (Some fTwoTags) false rangePE).1.2
    = [AnyString "b"; AnyString "a"; AnyInt 100]
  ∧ (queryEventsSql (limits0 dbEmpty) (Some fTwoTags) false rangeEP).1.2
    ≠ (queryEventsSql (limits0 dbEmpty) (Some fTwoTags) false rangePE).1.2.
Proof.
  split_and!.
  - vm_compute. reflexivity.
  - vm_compute. apply perm_swap.
  - reflexivity.
  - reflexivity.
  - intros H. vm_compute in H. discriminate H.
Qed.


(** C3, as the code has it.  CountEvents and QueryEvents compile in
    separate calls, each with its own iteration over the tags.  For a
    filter that compiles, both calls build the same condition list, and
    both texts are a selection clause followed by the same conditions
    joined by AND, the same ORDER BY created_at DESC and the same LIMIT
    placeholder (kept in the count query); they differ in the selection
    clause only.  The two parameter lists hold the tag values, each in the
    order of its own iteration, followed by the same since, until and
    limit: they are equal up to the order of the tag values, and equal
    when both calls iterate in the same order or there is at most one tag.
    A filter that takes an early return in one call takes it in the
    other. *)
Theorem count_and_rows_share_where_clause b filter trCount trRows :
  rangeOf (Tags filter) trCount → rangeOf (Tags filter) trRows →
  (buildConditions b filter trCount = None →
   queryEventsSql b (Some filter) true trCount = ("", [], None)
   ∧ queryEventsSql b (Some filter) false trRows = ("", [], None))
  ∧ (∀ conditions params,
       buildConditions b filter trCount = Some (conditions, params) →
       let shared :=
         Sqlx.Rebind (Sqlx.BindType "postgres") (Strings.Join conditions " AND ")
         +:+ " ORDER BY created_at DESC LIMIT $"
         +:+ Strconv.Itoa (Z.of_nat (length params)) in
       let rest :=
         timeParams (Since filter) ++ timeParams (Until filter)
         ++ [AnyInt (resolvedLimit b filter)] in
       let paramsRows := map AnyString (flatten trRows) ++ rest in
       buildConditions b filter trRows = Some (conditions, paramsRows)
       ∧ queryEventsSql b (Some filter) true trCount
         = (selectCount +:+ shared, params, None)
       ∧ queryEventsSql b (Some filter) false trRows
         = (selectRows +:+ shared, paramsRows, None)
       ∧ params = map AnyString (flatten trCount) ++ rest
       ∧ params ≡ₚ paramsRows
       ∧ (trCount = trRows ∨ (size (Tags filter) ≤ 1)%nat → paramsRows = params)).
Proof.
  unfold rangeOf. intros H1 H2.
  assert (Hp : trCount ≡ₚ trRows) by (by rewrite H1, H2).
  pose proof (flatten_perm _ _ Hp) as Hflat.
  destruct (queryEventsSql_tags b filter true trCount trRows) as (Hrej & Hconds & _);
    [by apply someTagEmpty_perm | by rewrite Hp | by rewrite Hflat |].
  split.
  - rewrite buildConditions_spec.
    destruct (rejected b filter trCount) eqn:Hr; [intros _|done].
    split; apply rejected_empty; [done | by rewrite <- Hrej].
  - intros conditions params (Hr & -> & ->)%buildConditions_inv. cbv zeta.
    split_and!.
    + rewrite buildConditions_spec, <- Hrej, Hr. by rewrite Hconds.
    + rewrite queryEventsSql_spec, Hr, Rebind_postgres.
      by rewrite (queryText_shape b) by done.
    + rewrite queryEventsSql_spec, <- Hrej, Hr, Rebind_postgres, <- Hconds.
      by rewrite (queryText_shape b) by done.
    + done.
    + unfold paramsOf. by rewrite Hflat.
    + intros [<-|Hsize]; [done|]. replace trRows with trCount; [done|].
      assert (Hone : (length trCount ≤ 1)%nat) by (by rewrite H1, length_map_to_list).
      destruct trCount as [|e [|e' trCount]]; [| |simpl in Hone; lia].
      * symmetry. by apply Permutation_nil.
      * symmetry. by apply Permutation_length_1_inv.
Qed.

Lemma count_and_rows_share_where_clause_witness :
  queryEventsSql (limits0 dbEmpty) (Some fTwoTags) true rangeEP
  = (selectCount +:+ "tagvalues && ARRAY[$1,$2] ORDER BY created_at DESC LIMIT $3",
     [AnyString "a"; AnyString "b"; AnyInt 100], None)
  ∧ queryEventsSql (limits0 dbEmpty) (Some fTwoTags) false rangePE
    = (selectRows +:+ "tagvalues && ARRAY[$1,$2] ORDER BY created_at DESC LIMIT $3",
       [AnyString "b"; AnyString "a"; AnyInt 100], None).
Proof.
  assert (H1 : rangeOf (Tags fTwoTags) rangeEP) by (vm_compute; reflexivity).
  assert (H2 : rangeOf (Tags fTwoTags) rangePE) by (vm_compute; apply perm_swap).
  destruct (count_and_rows_share_where_clause (limits0 dbEmpty) fTwoTags
              rangeEP rangePE H1 H2) as [_ Hsome].
  destruct (Hsome ["tagvalues && ARRAY[?,?]"]
              [AnyString "a"; AnyString "b"; AnyInt 100]) as (_ & Hcount & Hrows & _).
  { reflexivity. }
  split; [exact Hcount | exact Hrows].
Defined.

(** C3 as stated fails: for one filter with two tags, the call that
    compiles the count query and the call that compiles the rows query can
    iterate over the tags in different orders, and then return different
    parameter lists. *)
Lemma count_and_rows_parameters_can_differ :
  rangeOf (Tags fTwoTags) rangeEP ∧ rangeOf (Tags fTwoTags) rangePE
  ∧ (CountEvents (limits0 dbEmpty) (Some fTwoTags) rangeEP).2
    = [(selectCount +:+ "tagvalues && ARRAY[$1,$2] ORDER BY created_at DESC LIMIT $3",
        [AnyString "a"; AnyString "b"; AnyInt 100])]
  ∧ (QueryEvents (limits0 dbEmpty) (Some fTwoTags) rangePE).2
    = [(selectRows +:+ "tagvalues && ARRAY[$1,$2] ORDER BY created_at DESC LIMIT $3",
        [AnyString "b"; AnyString "a"; AnyInt 100])]
  ∧ (queryEventsSql (limits0 dbEmpty) (Some fTwoTags) true rangeEP).1.2
    ≠ (queryEventsSql (limits0 dbEmpty) (Some fTwoTags) false rangePE).1.2.
Proof.
  split_and!.
  - vm_compute. reflexivity.
  - vm_compute. apply perm_swap.
  - reflexivity.
  - reflexivity.
  - intros H. vm_compute in H. discriminate H.
Qed.

(* ================================================================== *)
(** * Further properties *)

(** ** Which entries survive, and what their literal is *)

Lemma nibble_pair_high (a b : Z) :
  0 ≤ a ≤ 15 → 0 ≤ b ≤ 15 → Z.shiftr (Z.lor (Z.shiftl a 4) b) 4 = a.
Proof.
  intros Ha Hb.
  rewrite Z.shiftr_lor, Z.shiftr_shiftl_l, Z.sub_diag, Z.shiftl_0_r by lia.
  rewrite (Z.shiftr_div_pow2 b) by lia.
  rewrite (Z.div_small b) by (change (2 ^ 4) with 16; lia).
  apply Z.lor_0_r.
Qed.

Lemma nibble_pair_low (a b : Z) :
  0 ≤ a ≤ 15 → 0 ≤ b ≤ 15 → Z.land (Z.lor (Z.shiftl a 4) b) 15 = b.
Proof.
  intros Ha Hb. change 15 with (Z.ones 4).
  rewrite Z.land_lor_distr_l, !Z.land_ones by lia.
  rewrite Z.shiftl_mul_pow2 by lia. rewrite Z.mod_mul by done.
  rewrite Z.mod_small by (change (2 ^ 4) with 16; lia). done.
Qed.

(** A character the table accepts is a hex digit, and the digit written
    for its value is its lower case. *)
Lemma reverseHexTable_digit (c : ascii) :
  (Hex.reverseHexTable c >? 15) = false →
  isHexDigit c = true ∧ Fmt.digit (Hex.reverseHexTable c) = lowerChar c.
Proof.
  destruct c as [[] [] [] [] [] [] [] []]; vm_compute; intros H;
    first [discriminate H | split; reflexivity].
Qed.

Lemma reverseHexTable_hex (c : ascii) :
  isHexDigit c = true → (Hex.reverseHexTable c >? 15) = false.
Proof.
  destruct c as [[] [] [] [] [] [] [] []]; vm_compute; intros H;
    first [discriminate H | reflexivity].
Qed.

(** A successful decoding: the input was hex digits, two per byte, and
    writing the bytes back gives the input in lower case. *)
Lemma DecodeString_ok (s : string) :
  (Hex.DecodeString s).2 = None →
  allChars isHexDigit s = true
  ∧ String.length s = (2 * length (Hex.DecodeString s).1)%nat
  ∧ Fmt.fmt_x (Hex.DecodeString s).1 = lowerString s.
Proof.
  induction s as [|p|p q rest IH] using string_pair_ind.
  - done.
  - simpl. by case_match.
  - simpl.
    destruct (Hex.reverseHexTable p >? 15) eqn:Hp; [done|].
    destruct (Hex.reverseHexTable q >? 15) eqn:Hq; [done|].
    destruct (Hex.DecodeString rest) as [bs err]. simpl in *.
    intros Herr. destruct (IH Herr) as (Hall & Hlen & Hfmt).
    destruct (reverseHexTable_digit p Hp) as [Hp1 Hp2].
    destruct (reverseHexTable_digit q Hq) as [Hq1 Hq2].
    pose proof (reverseHexTable_nibble p Hp).
    pose proof (reverseHexTable_nibble q Hq).
    rewrite Hp1, Hq1, Hall, Hlen, Hfmt.
    rewrite nibble_pair_high, nibble_pair_low, Hp2, Hq2 by done.
    split_and!; [done | lia | done].
Qed.

Lemma DecodeString_hex (s : string) :
  allChars isHexDigit s = true → Nat.even (String.length s) = true →
  (Hex.DecodeString s).2 = None.
Proof.
  induction s as [|p|p q rest IH] using string_pair_ind.
  - done.
  - done.
  - simpl. intros [Hp [Hq Hrest]%andb_true_iff]%andb_true_iff Heven.
    rewrite (reverseHexTable_hex p), (reverseHexTable_hex q) by done.
    specialize (IH Hrest Heven).
    by destruct (Hex.DecodeString rest).
Qed.

Lemma validEntry_iff (entry : string) :
  validEntry entry = true
  ↔ String.length entry = 64%nat ∧ allChars isHexDigit entry = true.
Proof.
  unfold validEntry.
  pose proof (DecodeString_ok entry) as Hok.
  pose proof (DecodeString_hex entry) as Hhex.
  destruct (Hex.DecodeString entry) as [parsed err]. simpl in *.
  rewrite andb_true_iff, bool_decide_eq_true, Z.eqb_eq. split.
  - intros [Herr Hlen]. destruct (Hok Herr) as (Hall & Hl & _). split; [lia | done].
  - intros [Hlen Hall].
    assert (Herr : err = None) by (apply Hhex; [done | by rewrite Hlen]).
    destruct (Hok Herr) as (_ & Hl & _). split; [done | lia].
Qed.

Lemma reencode_lower (entry : string) :
  validEntry entry = true → reencode entry = lowerString entry.
Proof.
  unfold validEntry, reencode.
  pose proof (DecodeString_ok entry) as Hok.
  destruct (Hex.DecodeString entry) as [parsed err]. simpl in *.
  intros [Herr%bool_decide_eq_true _]%andb_true_iff.
  by destruct (Hok Herr) as (_ & _ & ?).
Qed.

(** X1. The loop over ids (or authors) keeps exactly the entries made of
    64 hex digits, upper or lower case, in their order and with their
    repetitions, and writes each one in lower case between the quotes. *)
Theorem likeLoop_keeps_hex64_in_lower_case (column : string) (entries : list string) :
  likeLoop column entries
  = map (λ e, column +:+ " LIKE '" +:+ lowerString e +:+ "%'")
      (base.filter
         (λ e, String.length e = 64%nat ∧ allChars isHexDigit e = true) entries).
Proof.
  rewrite likeLoop_survivors. unfold survivors.
  induction entries as [|e entries IH]; [done|].
  rewrite !filter_cons.
  destruct (decide (validEntry e = true)) as [He|He].
  - rewrite decide_True by (by apply validEntry_iff).
    cbn [map]. rewrite IH. unfold prefixMatch at 1. by rewrite reencode_lower.
  - rewrite decide_False by (by rewrite <- validEntry_iff). apply IH.
Qed.

(** ** When the early returns are taken *)

Lemma overLimit_true_iff {A} limit (dim : option (list A)) :
  overLimit limit dim = true ↔ ∃ l, dim = Some l ∧ limit < Z.of_nat (length l).
Proof.
  destruct dim as [l|]; simpl.
  - rewrite Z.gtb_lt. split; [eauto | by intros (? & [= <-] & ?)].
  - split; [done | by intros (? & ? & _)].
Qed.

Lemma noneValid_true_iff (dim : option (list string)) :
  noneValid dim = true
  ↔ ∃ l, dim = Some l
         ∧ ∀ e, e ∈ l → ¬ (String.length e = 64%nat ∧ allChars isHexDigit e = true).
Proof.
  destruct dim as [l|]; simpl; [|split; [done | by intros (? & ? & _)]].
  rewrite forallb_forall. split.
  - intros H. exists l. split; [done|]. intros e He%list_elem_of_In Hv%validEntry_iff.
    specialize (H e He). by rewrite Hv in H.
  - intros (? & [= <-] & H) e He%list_elem_of_In.
    destruct (validEntry e) eqn:Hv; [|done].
    by apply validEntry_iff, H in Hv.
Qed.

Lemma presentEmpty_true_iff {A} (dim : option (list A)) :
  presentEmpty dim = true ↔ dim = Some [].
Proof. by destruct dim as [[|x l]|]. Qed.

Lemma tagsOverLimit_true_iff limit (tagsRange : list (string * list string)) :
  tagsOverLimit limit tagsRange = true
  ↔ tagsRange ≠ [] ∧ limit < Z.of_nat (length (flatten tagsRange)).
Proof.
  destruct tagsRange as [|e rest]; cbn [tagsOverLimit].
  - split; [done | by intros [? _]].
  - rewrite Z.gtb_lt. split; [done | by intros [_ ?]].
Qed.

Lemma empty_text_iff_rejected b filter doCount tagsRange :
  (queryEventsSql b (Some filter) doCount tagsRange).1.1 = ""
  ↔ rejected b filter tagsRange = true.
Proof.
  split.
  - intros Htext. destruct (rejected b filter tagsRange) eqn:Hrej; [done|].
    by apply (queryEventsSql_text_nonempty b filter doCount) in Hrej.
  - intros Hrej. by rewrite rejected_empty.
Qed.

(** X2. For a non-nil filter, the empty text is returned exactly in these
    cases: ids (or authors) present with more entries than the limit or
    with no entry of 64 hex digits; kinds present with more entries than
    the limit or with none; a tag delivered with an empty value list; tags
    delivered whose values together outnumber the limit.  Absent
    dimensions and a tags map without entries never lead to it. *)
Theorem empty_text_exactly_when b filter doCount tagsRange :
  (queryEventsSql b (Some filter) doCount tagsRange).1.1 = ""
  ↔ (∃ ids, IDs filter = Some ids
       ∧ (QueryIDsLimit b < Z.of_nat (length ids)
          ∨ ∀ e, e ∈ ids → ¬ (String.length e = 64%nat ∧ allChars isHexDigit e = true)))
    ∨ (∃ authors, Authors filter = Some authors
         ∧ (QueryAuthorsLimit b < Z.of_nat (length authors)
            ∨ ∀ e, e ∈ authors
                → ¬ (String.length e = 64%nat ∧ allChars isHexDigit e = true)))
    ∨ (∃ kinds, Kinds filter = Some kinds
         ∧ (QueryKindsLimit b < Z.of_nat (length kinds) ∨ kinds = []))
    ∨ (∃ name, (name, []) ∈ tagsRange)
    ∨ (tagsRange ≠ [] ∧ QueryTagsLimit b < Z.of_nat (length (flatten tagsRange))).
Proof.
  rewrite empty_text_iff_rejected. unfold rejected.
  rewrite !orb_true_iff, !overLimit_true_iff, !noneValid_true_iff,
    presentEmpty_true_iff, someTagEmpty_true_iff, tagsOverLimit_true_iff.
  naive_solver.
Qed.

(** ** The final text *)

Lemma rebindFrom_Join j (elems : list string) (sep : string) :
  countChar "?" sep = 0%nat →
  Sqlx.rebindFrom Sqlx.DOLLAR j (Strings.Join elems sep)
  = Strings.Join (rebindEach j elems) sep.
Proof.
  intros Hsep. revert j.
  induction elems as [|e [|e' elems] IH]; intros j; [done | done |].
  change (Strings.Join (e :: e' :: elems) sep)
    with (e +:+ sep +:+ Strings.Join (e' :: elems) sep).
  rewrite !rebindFrom_app, (rebindFrom_plain _ _ sep), Hsep, Z.add_0_r, IH by done.
  done.
Qed.

Lemma rebindEach_plain_app j (l1 l2 : list string) :
  Forall (λ e, allChars isPlain e = true) l1 →
  rebindEach j (l1 ++ l2) = l1 ++ rebindEach j l2.
Proof.
  induction 1 as [|e l1 He _ IH]; [done|].
  cbn [app rebindEach].
  assert (Hq : countChar "?" e = 0%nat) by (apply plain_count; [by left | done]).
  by rewrite Hq, rebindFrom_plain, Z.add_0_r, IH.
Qed.

Lemma rebindEach_marks j (values : list string) :
  rebindEach j (map (λ _, "?") values) = numbered j (length values).
Proof.
  revert j. induction values as [|v values IH]; intros j; [done|].
  cbn [map rebindEach length numbered countChar].
  rewrite IH. f_equal.
  cbn [Sqlx.rebindFrom Sqlx.bindPrefix]. simpl Ascii.eqb. cbv iota.
  cbn [Sqlx.rebindFrom]. by rewrite append_nil_r.
Qed.

Lemma rebindFrom_overlap j (values : list string) :
  Sqlx.rebindFrom Sqlx.DOLLAR j (overlapCond values)
  = "tagvalues && ARRAY[" +:+ Strings.Join (numbered j (length values)) "," +:+ "]".
Proof.
  unfold overlapCond.
  rewrite rebindFrom_app, (rebindFrom_plain _ _ "tagvalues && ARRAY[") by done.
  rewrite rebindFrom_app, rebindFrom_Join, rebindEach_marks by done.
  rewrite (rebindFrom_plain _ _ "]") by done.
  change (countChar "?" "tagvalues && ARRAY[") with 0%nat.
  by rewrite Z.add_0_r.
Qed.

Lemma rebindFrom_since j :
  Sqlx.rebindFrom Sqlx.DOLLAR j "created_at >= ?"
  = "created_at >= $" +:+ Strconv.Itoa (j + 1).
Proof.
  change "created_at >= ?" with ("created_at >= " +:+ "?").
  rewrite rebindFrom_app, (rebindFrom_plain _ _ "created_at >= ") by done.
  change (countChar "?" "created_at >= ") with 0%nat. rewrite Z.add_0_r.
  cbn [Sqlx.rebindFrom Sqlx.bindPrefix]. simpl Ascii.eqb. cbv iota.
  cbn [Sqlx.rebindFrom]. by rewrite append_nil_r.
Qed.

Lemma rebindFrom_until j :
  Sqlx.rebindFrom Sqlx.DOLLAR j "created_at <= ?"
  = "created_at <= $" +:+ Strconv.Itoa (j + 1).
Proof.
  change "created_at <= ?" with ("created_at <= " +:+ "?").
  rewrite rebindFrom_app, (rebindFrom_plain _ _ "created_at <= ") by done.
  change (countChar "?" "created_at <= ") with 0%nat. rewrite Z.add_0_r.
  cbn [Sqlx.rebindFrom Sqlx.bindPrefix]. simpl Ascii.eqb. cbv iota.
  cbn [Sqlx.rebindFrom]. by rewrite append_nil_r.
Qed.

Lemma overlapCond_question (values : list string) :
  countChar "?" (overlapCond values) = length values.
Proof.
  unfold overlapCond. rewrite !countChar_app, marks_question. simpl. lia.
Qed.

Lemma rebindEach_conditions filter tagsRange :
  rebindEach 0 (conditionsOf filter tagsRange) = boundConditions filter tagsRange.
Proof.
  unfold conditionsOf, boundConditions, emitted. cbv zeta.
  set (A := likeConds "id" (IDs filter)).
  set (B := likeConds "pubkey" (Authors filter)).
  set (K := kindConds (Kinds filter)).
  assert (HA : Forall (λ e, allChars isPlain e = true) A) by by apply likeConds_plain.
  assert (HB : Forall (λ e, allChars isPlain e = true) B) by by apply likeConds_plain.
  assert (HK : Forall (λ e, allChars isPlain e = true) K) by apply kindConds_plain.
  transitivity (orTrue (rebindEach 0
    (A ++ B ++ K ++ tagConds (flatten tagsRange)
     ++ sinceConds (Since filter) ++ untilConds (Until filter)))).
  { by destruct (A ++ _). }
  f_equal. rewrite !rebindEach_plain_app by done. do 3 f_equal.
  destruct (flatten tagsRange) as [|v vs] eqn:Hflat;
    destruct (Since filter) as [since|], (Until filter) as [until|];
    cbn [tagConds sinceConds untilConds timeParams app rebindEach length];
    rewrite ?rebindFrom_overlap, ?overlapCond_question,
      ?rebindFrom_since, ?rebindFrom_until;
    cbn [countChar length]; simpl Ascii.eqb; cbv iota;
    repeat f_equal; lia.
Qed.

(** X3. The text of a compiled query, in full: the selection clause, the
    conditions joined by AND in the order ids, authors, kinds, tags,
    since, until (or "true" alone), then ORDER BY and LIMIT.  The
    placeholders are numbered in the order of the parameter list: [$1] to
    [$t] for the t tag values, the next number for since, the next for
    until, and the last for the limit. *)
Theorem final_text_numbers_placeholders b filter (doCount : bool) tagsRange :
  (queryEventsSql b (Some filter) doCount tagsRange).1.1 ≠ "" →
  (queryEventsSql b (Some filter) doCount tagsRange).1.1
  = (if doCount then selectCount else selectRows)
    +:+ Strings.Join (boundConditions filter tagsRange) " AND "
    +:+ " ORDER BY created_at DESC LIMIT $"
    +:+ Strconv.Itoa
          (Z.of_nat (length (flatten tagsRange) + length (timeParams (Since filter))
                     + length (timeParams (Until filter))) + 1)
  ∧ (queryEventsSql b (Some filter) doCount tagsRange).1.2
    = map AnyString (flatten tagsRange) ++ timeParams (Since filter)
      ++ timeParams (Until filter) ++ [AnyInt (resolvedLimit b filter)].
Proof.
  intros Hne.
  assert (Hrej : rejected b filter tagsRange = false).
  { destruct (rejected b filter tagsRange) eqn:Hrej; [|done].
    by apply (empty_text_iff_rejected b filter doCount) in Hrej. }
  rewrite queryEventsSql_spec, Hrej. cbn [fst snd]. split; [|done].
  rewrite (queryText_shape b) by apply select_no_question.
  rewrite rebindFrom_Join, rebindEach_conditions by done.
  unfold orderLimitBound. rewrite paramsOf_length.
  do 4 f_equal. lia.
Qed.

Lemma final_text_numbers_placeholders_witness :
  (queryEventsSql (limits0 dbEmpty) (Some fWindow) true rangeEP).1.1
  = selectCount
    +:+ "tagvalues && ARRAY[$1,$2] AND created_at >= $3 AND created_at <= $4"
    +:+ " ORDER BY created_at DESC LIMIT $5".
Proof.
  destruct (final_text_numbers_placeholders (limits0 dbEmpty) fWindow true rangeEP)
    as [Htext _].
  - vm_compute. intros H. discriminate H.
  - exact Htext.
Defined.

(** ** Bounds *)

(** X4. The limit sent to the storage never exceeds QueryLimit, whatever
    the filter asks for; it is the requested limit or QueryLimit, and at
    least 1 as soon as QueryLimit is. *)
Theorem limit_parameter_within_bounds b filter doCount tagsRange q ps err :
  queryEventsSql b (Some filter) doCount tagsRange = (q, ps, err) → q ≠ "" →
  ∃ n, last ps = Some (AnyInt n)
       ∧ n ≤ QueryLimit b
       ∧ (1 ≤ QueryLimit b → 1 ≤ n)
       ∧ (n = Limit filter ∨ n = QueryLimit b).
Proof.
  intros Hq Hne.
  destruct (queryEventsSql_inv _ _ _ _ _ _ _ Hq Hne) as (f & [= <-] & _ & _ & -> & _).
  exists (resolvedLimit b filter). split.
  - unfold paramsOf. by rewrite !app_assoc, last_snoc.
  - unfold resolvedLimit.
    destruct (Limit filter <? 1) eqn:H1, (Limit filter >? QueryLimit b) eqn:H2;
      cbn [orb]; try apply Z.ltb_ge in H1; try apply Z.ltb_lt in H1;
      rewrite Z.gtb_ltb in H2; try apply Z.ltb_ge in H2; try apply Z.ltb_lt in H2;
      split_and!; try lia; auto.
Qed.

Lemma limit_parameter_within_bounds_witness :
  ∃ n, last [AnyInt 100] = Some (AnyInt n) ∧ n ≤ 100 ∧ (1 ≤ 100 → 1 ≤ n)
       ∧ (n = 100000 ∨ n = 100).
Proof.
  apply (limit_parameter_within_bounds (limits0 dbEmpty)
           {| IDs := None; Authors := None; Kinds := None; Tags := ∅;
              Since := None; Until := None; Limit := 100000 |} false []
           (selectRows +:+ "true ORDER BY created_at DESC LIMIT $1") [AnyInt 100] None).
  - reflexivity.
  - vm_compute. intros H. discriminate H.
Defined.

Lemma survivors_length (entries : list string) :
  (length (survivors entries) ≤ length entries)%nat.
Proof. unfold survivors. rewrite length_map. apply length_filter. Qed.

Lemma overLimit_false_le {A} limit (l : list A) :
  overLimit limit (Some l) = false → Z.of_nat (length l) ≤ limit.
Proof. simpl. rewrite Z.gtb_ltb. by intros H%Z.ltb_ge. Qed.

(** X5. A compiled query is bounded by the configuration: at most
    QueryTagsLimit + 3 parameters, between one and six conditions, and for
    each present dimension at least one and at most limit-many
    alternatives (ids, authors) or kinds. *)
Theorem compiled_query_size_bounded b filter tagsRange conditions params :
  buildConditions b filter tagsRange = Some (conditions, params) →
  0 ≤ QueryTagsLimit b →
  Z.of_nat (length params) ≤ QueryTagsLimit b + 3
  ∧ (1 ≤ length conditions ≤ 6)%nat
  ∧ (∀ ids, IDs filter = Some ids →
       1 ≤ Z.of_nat (length (likeLoop "id" ids)) ≤ QueryIDsLimit b)
  ∧ (∀ authors, Authors filter = Some authors →
       1 ≤ Z.of_nat (length (likeLoop "pubkey" authors)) ≤ QueryAuthorsLimit b)
  ∧ (∀ kinds, Kinds filter = Some kinds →
       1 ≤ Z.of_nat (length kinds) ≤ QueryKindsLimit b).
Proof.
  intros (Hrej & -> & ->)%buildConditions_inv Hlimit.
  apply rejected_false_inv in Hrej
    as ((Hi1 & Hi2) & (Ha1 & Ha2) & (Hk1 & Hk2) & _ & Ht).
  split_and!.
  - rewrite paramsOf_length.
    assert (Z.of_nat (length (flatten tagsRange)) ≤ QueryTagsLimit b).
    { destruct tagsRange as [|e rest]; [simpl; lia|].
      cbn [tagsOverLimit] in Ht. rewrite Z.gtb_ltb in Ht. by apply Z.ltb_ge in Ht. }
    destruct (Since filter), (Until filter); simpl; lia.
  - unfold conditionsOf, emitted.
    destruct (IDs filter), (Authors filter), (Kinds filter), (flatten tagsRange),
      (Since filter), (Until filter); simpl; lia.
  - unfold conditionsOf, emitted.
    destruct (IDs filter), (Authors filter), (Kinds filter), (flatten tagsRange),
      (Since filter), (Until filter); simpl; lia.
  - intros ids Hids. rewrite Hids in Hi1, Hi2.
    rewrite likeLoop_survivors, length_map.
    pose proof (survivors_length ids). apply overLimit_false_le in Hi1.
    split; [|lia].
    destruct (survivors ids) eqn:Hs; [|simpl; lia].
    apply survivors_nil_iff in Hs. simpl in Hi2. congruence.
  - intros authors Hauthors. rewrite Hauthors in Ha1, Ha2.
    rewrite likeLoop_survivors, length_map.
    pose proof (survivors_length authors). apply overLimit_false_le in Ha1.
    split; [|lia].
    destruct (survivors authors) eqn:Hs; [|simpl; lia].
    apply survivors_nil_iff in Hs. simpl in Ha2. congruence.
  - intros kinds Hkinds. rewrite Hkinds in Hk1, Hk2.
    apply overLimit_false_le in Hk1. split; [|done].
    destruct kinds; [done | simpl; lia].
Qed.

Lemma compiled_query_size_bounded_witness :
  Z.of_nat (length [AnyString "a"; AnyString "b"; AnyInt 5]) ≤ 10 + 3.
Proof.
  destruct (compiled_query_size_bounded (limits0 dbEmpty)
    {| IDs := Some [hex64; "zz-not-hex"]; Authors := None; Kinds := Some [1; -2; 30];
       Tags := ∅; Since := None; Until := None; Limit := 5 |} rangeEP
    ["(id LIKE '00112233445566778899aabbccddeeff00112233445566778899aabbccddeeff%')";
     "kind IN (1,-2,30)"; "tagvalues && ARRAY[?,?]"]
    [AnyString "a"; AnyString "b"; AnyInt 5]) as [Hparams _].
  - reflexivity.
  - simpl. lia.
  - exact Hparams.
Defined.

(** ** What reaches the text *)

Lemma flatten_length (tagsRange : list (string * list string)) :
  length (flatten tagsRange) = sum_list (map (λ e, length e.2) tagsRange).
Proof.
  unfold flatten. induction tagsRange as [|e rest IH]; [done|].
  simpl. by rewrite length_app, IH.
Qed.

Lemma someTagEmpty_lengths (tr1 tr2 : list (string * list string)) :
  map (λ e, length e.2) tr1 = map (λ e, length e.2) tr2 →
  someTagEmpty tr1 = someTagEmpty tr2.
Proof.
  revert tr2. induction tr1 as [|e1 tr1 IH]; intros [|e2 tr2]; try done.
  simpl. intros [= Hlen H]. by rewrite Hlen, (IH _ H).
Qed.

(** X6. The values that are bound never reach the text: two filters with
    the same ids, authors and kinds, the same number of values per
    delivered tag and the same bounds present compile to the same text,
    whatever the tag values, the timestamps and the requested limits. *)
Theorem text_independent_of_bound_values b f1 f2 doCount
    (tr1 tr2 : list (string * list string)) :
  IDs f1 = IDs f2 → Authors f1 = Authors f2 → Kinds f1 = Kinds f2 →
  map (λ e, length e.2) tr1 = map (λ e, length e.2) tr2 →
  isPresent (Since f1) = isPresent (Since f2) →
  isPresent (Until f1) = isPresent (Until f2) →
  (queryEventsSql b (Some f1) doCount tr1).1.1
  = (queryEventsSql b (Some f2) doCount tr2).1.1.
Proof.
  intros Hids Hauthors Hkinds Htags Hsince Huntil.
  assert (Hflat : length (flatten tr1) = length (flatten tr2))
    by (by rewrite !flatten_length, Htags).
  assert (Hlen : length tr1 = length tr2).
  { by rewrite <- (length_map (λ e, length e.2) tr1), Htags, length_map. }
  assert (Hrej : rejected b f1 tr1 = rejected b f2 tr2).
  { unfold rejected.
    by rewrite Hids, Hauthors, Hkinds, (someTagEmpty_lengths _ _ Htags),
      (tagsOverLimit_length _ tr1 tr2). }
  assert (Hconds : conditionsOf f1 tr1 = conditionsOf f2 tr2).
  { unfold conditionsOf, emitted. rewrite Hids, Hauthors, Hkinds. do 4 f_equal.
    f_equal.
    - destruct (flatten tr1) as [|v1 l1], (flatten tr2) as [|v2 l2]; try done.
      unfold tagConds, overlapCond. by rewrite !marks_replicate, Hflat.
    - f_equal; [by destruct (Since f1), (Since f2) | by destruct (Until f1), (Until f2)]. }
  rewrite !queryEventsSql_spec, Hrej, Hconds.
  by destruct (rejected b f2 tr2).
Qed.

Lemma text_independent_of_bound_values_witness :
  (queryEventsSql (limits0 dbEmpty) (Some fWindow) false [("e", ["a"; "b"])]).1.1
  = (queryEventsSql (limits0 dbEmpty)
       (Some {| IDs := None; Authors := None; Kinds := None; Tags := ∅;
                Since := Some 7; Until := Some 9; Limit := 3 |})
       false [("p", ["x'; DROP TABLE event; --"; "?"])]).1.1.
Proof.
  apply text_independent_of_bound_values; reflexivity.
Defined.

(** ** The callers and the storage *)

Lemma queryEventsSql_no_error b filter doCount tagsRange :
  (queryEventsSql b (Some filter) doCount tagsRange).2 = None.
Proof. rewrite queryEventsSql_spec. by destruct (rejected b filter tagsRange). Qed.

Lemma scanRows_prefix (events : list Event) (rest : Rows) :
  rest = [] ∨ head rest = Some None →
  scanRows (map Some events ++ rest) = events.
Proof.
  intros Hrest. induction events as [|e events IH]; simpl; [|by rewrite IH].
  destruct Hrest as [->|Hhead]; [done|].
  by destruct rest as [|[r|] rest].
Qed.

(** X7. QueryEvents returns either a channel or an error, never both and
    never neither.  It calls the storage once, with the text and the
    parameters compiled for the rows shape, unless the filter is nil, in
    which case it does not call it.  An error it returns is the nil-filter
    error or wraps, with the query text, an error of the storage other
    than "no rows". *)
Theorem QueryEvents_channel_or_error b (filter : option Filter) tagsRange :
  let compiled := queryEventsSql b filter false tagsRange in
  let result := QueryEvents b filter tagsRange in
  (result.1.1 = None ↔ result.1.2 ≠ None)
  ∧ (result.2 = [] ↔ filter = None)
  ∧ (filter ≠ None → result.2 = [(compiled.1.1, compiled.1.2)])
  ∧ (∀ e, result.1.2 = Some e →
       (filter = None ∧ e = Errorf "filter cannot be null")
       ∨ (∃ msg, e = ErrFetch compiled.1.1 (ErrDriver msg)
                 ∧ (Query (db b) compiled.1.1 compiled.1.2).2 = Some (ErrDriver msg))).
Proof.
  cbv zeta. unfold QueryEvents.
  destruct filter as [f|].
  - pose proof (queryEventsSql_no_error b f false tagsRange) as Herr.
    destruct (queryEventsSql b (Some f) false tagsRange) as [[q ps] err].
    simpl in Herr. subst err. cbn [fst snd].
    destruct (Query (db b) q ps) as [rows [[|msg]|]] eqn:Hquery; cbn [fst snd];
      split_and!; try done; try (by split); try (by intros e [=]).
    intros e [= <-]. right. by exists msg.
  - simpl. split_and!; try done; try (by split).
    intros e [= <-]. by left.
Qed.

Lemma QueryEvents_channel_or_error_witness :
  (QueryEvents (limits0 dbDown) (Some fKind10) []).2
  = [(selectRows +:+ "kind IN (1) ORDER BY created_at DESC LIMIT $1", [AnyInt 10])]
  ∧ (QueryEvents (limits0 dbDown) (Some fKind10) []).1.1 = None.
Proof.
  destruct (QueryEvents_channel_or_error (limits0 dbDown) (Some fKind10) [])
    as (Hboth & _ & Hcall & _).
  split; [by apply Hcall | by apply Hboth].
Defined.

(** X8. When the storage answers the compiled query with rows, the
    consumer receives the events of the rows that precede the first row
    whose scan fails, in the order of the storage, and QueryEvents reports
    no error: a failing row ends the sequence without a trace, and the
    rows after it are not delivered. *)
Theorem rows_delivered_until_first_scan_failure b filter tagsRange
    (events : list Event) (rest : Rows) :
  Query (db b) (queryEventsSql b (Some filter) false tagsRange).1.1
               (queryEventsSql b (Some filter) false tagsRange).1.2
  = (Some (map Some events ++ rest), None) →
  rest = [] ∨ head rest = Some None →
  (QueryEvents b (Some filter) tagsRange).1 = (Some (Delivered events), None).
Proof.
  intros Hquery Hrest. unfold QueryEvents.
  pose proof (queryEventsSql_no_error b filter false tagsRange) as Herr.
  destruct (queryEventsSql b (Some filter) false tagsRange) as [[q ps] err].
  simpl in Herr, Hquery. subst err. rewrite Hquery. cbn [fst produce].
  by rewrite scanRows_prefix.
Qed.

Lemma rows_delivered_until_first_scan_failure_witness :
  (QueryEvents (limits0 dbThree) (Some fKind10) []).1
  = (Some (Delivered [evt "a" 3; evt "b" 2]), None).
Proof.
  apply (rows_delivered_until_first_scan_failure (limits0 dbThree) fKind10 []
           [evt "a" 3; evt "b" 2] [None; Some (evt "c" 1)]).
  - reflexivity.
  - right. reflexivity.
Defined.

(** X9. CountEvents calls the storage once, with the text and the
    parameters compiled for the count shape, unless the filter is nil.  It
    returns the scanned count when the scan succeeds and 0 without error
    when the storage reports "no rows"; whenever it returns an error the
    count is 0, and the error is the nil-filter error or wraps, with the
    query text, the error of the storage. *)
Theorem CountEvents_count_or_error b (filter : option Filter) tagsRange :
  let compiled := queryEventsSql b filter true tagsRange in
  let result := CountEvents b filter tagsRange in
  (result.1.2 ≠ None → result.1.1 = 0)
  ∧ (result.2 = [] ↔ filter = None)
  ∧ (filter ≠ None → result.2 = [(compiled.1.1, compiled.1.2)])
  ∧ (∀ n, filter ≠ None →
       QueryRowScan (db b) compiled.1.1 compiled.1.2 = inl n →
       result.1 = (n, None))
  ∧ (filter ≠ None →
     QueryRowScan (db b) compiled.1.1 compiled.1.2 = inr ErrNoRows →
     result.1 = (0, None))
  ∧ (∀ e, result.1.2 = Some e →
       (filter = None ∧ e = Errorf "filter cannot be null")
       ∨ (∃ msg, e = ErrFetch compiled.1.1 (ErrDriver msg)
                 ∧ QueryRowScan (db b) compiled.1.1 compiled.1.2
                   = inr (ErrDriver msg))).
Proof.
  cbv zeta. unfold CountEvents.
  destruct filter as [f|].
  - pose proof (queryEventsSql_no_error b f true tagsRange) as Herr.
    destruct (queryEventsSql b (Some f) true tagsRange) as [[q ps] err].
    simpl in Herr. subst err. cbn [fst snd].
    destruct (QueryRowScan (db b) q ps) as [n|[|msg]] eqn:Hscan; cbn [fst snd];
      split_and!; try done; try (by split); try (by intros e [=]).
    + by intros n' _ [= <-].
    + intros e [= <-]. right. by exists msg.
  - simpl. split_and!; try done; try (by split).
    intros e [= <-]. by left.
Qed.

Lemma CountEvents_count_or_error_witness :
  (CountEvents (limits0 dbThree) (Some fKind10) []).1 = (3, None)
  ∧ (CountEvents (limits0 dbThree) (Some fKind10) []).2
    = [(selectCount +:+ "kind IN (1) ORDER BY created_at DESC LIMIT $1", [AnyInt 10])].
Proof.
  destruct (CountEvents_count_or_error (limits0 dbThree) (Some fKind10) [])
    as (_ & _ & Hcall & Hcount & _).
  split; [by apply Hcount | by apply Hcall].
Defined.
